(** * libtpl: image to TPL texture conversion (tpl.go)

    A shallow embedding of [tpl.go] and the properties of its four
    encoders (I4, IA4, RGB565, RGB5A3), of the texel adapter
    [imageToRGBA], of [addPadding] and of the header writer
    [makeTPLHeader].

    Conventions of the embedding.
    - Go's [uint32], [uint16] and [byte] values are integers of [Z]; every
      operation that can leave the type's range is written with its
      wrap-around ([u32], [u16], [u8]).
    - Go's [int] (widths, heights, indices) is the 64-bit signed integer:
      every addition, subtraction and multiplication of the program is
      wrapped by [int].  Go's [%] and [/] on [int] truncate: [Z.rem] and
      [Z.quot].
    - A slice is a list; indexing outside [0, len) and [make] with a
      negative length are run-time panics, kept as the [Panic] outcome.
    - Local variables that a loop updates are threaded as explicit state.
    - Memory is unbounded: [make] fails on a negative length only. *)

From Stdlib Require Import ZArith Lia List Bool.
From stdpp Require Import base numbers list.

Local Open Scope Z_scope.

(** ** Outcomes of a Go call *)

Inductive panic : Type :=
| IndexOutOfRange
| LenOutOfRange.

Inductive error : Type :=
| WriteError.

(** [Unfinished]: a loop was cut off while its condition still held
    (see [for_]). *)
Inductive result (A : Type) : Type :=
| Ok (a : A)
| Err (e : error)
| Panic (p : panic)
| Unfinished.

Arguments Ok {A} a.
Arguments Err {A} e.
Arguments Panic {A} p.
Arguments Unfinished {A}.

Definition bind {A B : Type} (m : result A) (k : A -> result B) : result B :=
  match m with
  | Ok a => k a
  | Err e => Err e
  | Panic p => Panic p
  | Unfinished => Unfinished
  end.

Notation "'let*' x ':=' m 'in' k" := (bind m (fun x => k))
  (at level 10, x pattern, m at level 100, k at level 200).

(** ** Fixed-width integers *)

Definition u8 (z : Z) : Z := z mod 2 ^ 8.
Definition u16 (z : Z) : Z := z mod 2 ^ 16.
Definition u32 (z : Z) : Z := z mod 2 ^ 32.

(** Go's [int]: 64 bits, two's complement. *)
Definition int (z : Z) : Z := (z + 2 ^ 63) mod 2 ^ 64 - 2 ^ 63.

Definition add32 (a b : Z) : Z := u32 (a + b).
Definition mul32 (a b : Z) : Z := u32 (a * b).
Definition shl32 (a n : Z) : Z := u32 (Z.shiftl a n).

(** ** Slices *)

Definition len {A : Type} (l : list A) : Z := Z.of_nat (length l).

Definition make (n : Z) : result (list Z) :=
  if n <? 0 then Panic LenOutOfRange else Ok (replicate (Z.to_nat n) 0).

Definition index (l : list Z) (i : Z) : result Z :=
  if i <? 0 then Panic IndexOutOfRange
  else match l !! Z.to_nat i with
       | Some v => Ok v
       | None => Panic IndexOutOfRange
       end.

Definition assign (l : list Z) (i v : Z) : result (list Z) :=
  if (i <? 0) || (len l <=? i) then Panic IndexOutOfRange
  else Ok (<[Z.to_nat i := v]> l).

(** ** Counted loops: [for i := lo; i < hi; i += step { body }]

    The body threads the variables it updates.  With [step >= 1] a loop
    whose index does not wrap around runs at most [hi - lo] times, which
    is the fuel [for_] gives; a loop whose index wraps around is cut off
    there as [Unfinished]. *)

Fixpoint loop {S : Type} (fuel : nat) (i hi step : Z)
    (body : Z -> S -> result S) (s : S) : result S :=
  if i <? hi
  then match fuel with
       | O => Unfinished
       | Datatypes.S fuel' =>
           let* s' := body i s in loop fuel' (int (i + step)) hi step body s'
       end
  else Ok s.

Definition for_ {S : Type} (lo hi step : Z)
    (body : Z -> S -> result S) (s : S) : result S :=
  loop (Z.to_nat (hi - lo)) lo hi step body s.

(** ** The [image] package: what the encoders use of it *)

Module image.

Record Point : Type := { X : Z; Y : Z }.

Record Rectangle : Type := { Min : Point; Max : Point }.

(** The four results of [Color.RGBA()]. *)
Record RGBA : Type := { red : Z; green : Z; blue : Z; alpha : Z }.

(** [At img x y] stands for [img.At(x, y).RGBA()]. *)
Record Image : Type := { Bounds : Rectangle; At : Z -> Z -> RGBA }.

End image.

Import image.

(** ** [tpl.go] *)

Definition TPLMagic : Z := 0x0020AF30.

Record FileHeader : Type := {
  Magic : Z;
  NumOfImages : Z;
  ImageTableOff : Z
}.

Record ImageHeader : Type := {
  Height : Z;
  Width : Z;
  Format : Z;
  DataOffset : Z;
  WrapS : Z;
  WrapT : Z;
  MinFilter : Z;
  MagFilter : Z;
  LODBias : Z;   (* the IEEE-754 bits of the float32 *)
  EdgeLOD : Z;
  MidLOD : Z;
  MaxLOD : Z;
  Unpacked : Z
}.

Record TPL : Type := {
  Header : FileHeader;
  ImageOff : Z;
  PaletteOff : Z;
  Image_ : ImageHeader
}.

Inductive TextureFormat : Type :=
| I4 | I8 | IA4 | IA8 | RGB565 | RGB5A3 | RGBA8 | CI4 | CI8 | CI14X2 | CMP.

(** The constant block: [iota] up to [RGBA8]; [CI14X2] repeats [CI8]'s
    expression. *)
Definition format_id (f : TextureFormat) : Z :=
  match f with
  | I4 => 0 | I8 => 1 | IA4 => 2 | IA8 => 3 | RGB565 => 4 | RGB5A3 => 5
  | RGBA8 => 6 | CI4 => 8 | CI8 => 9 | CI14X2 => 9 | CMP => 14
  end.

(** [binary.Write(buf, binary.BigEndian, v)] on fixed-size fields. *)
Definition be8 (v : Z) : list Z := [u8 v].
Definition be16 (v : Z) : list Z := [u8 (Z.shiftr v 8); u8 v].
Definition be32 (v : Z) : list Z :=
  [u8 (Z.shiftr v 24); u8 (Z.shiftr v 16); u8 (Z.shiftr v 8); u8 v].

Definition write_FileHeader (h : FileHeader) : list Z :=
  be32 (Magic h) ++ be32 (NumOfImages h) ++ be32 (ImageTableOff h).

Definition write_ImageHeader (h : ImageHeader) : list Z :=
  be16 (Height h) ++ be16 (Width h) ++ be32 (Format h) ++ be32 (DataOffset h)
  ++ be32 (WrapS h) ++ be32 (WrapT h) ++ be32 (MinFilter h)
  ++ be32 (MagFilter h) ++ be32 (LODBias h)
  ++ be8 (EdgeLOD h) ++ be8 (MidLOD h) ++ be8 (MaxLOD h) ++ be8 (Unpacked h).

Definition write_TPL (t : TPL) : list Z :=
  write_FileHeader (Header t) ++ be32 (ImageOff t) ++ be32 (PaletteOff t)
  ++ write_ImageHeader (Image_ t).

(** Writing a value whose fields all have a fixed size into a
    [bytes.Buffer] returns no error. *)
Definition binary_Write (buf : list Z) (t : TPL) : result (list Z) :=
  Ok (buf ++ write_TPL t).

Definition makeTPLHeader (raw : list Z) (format : TextureFormat)
    (width height : Z) : result (list Z) :=
  let buf := [] in
  let tpl := {|
    Header := {| Magic := TPLMagic; NumOfImages := 1; ImageTableOff := 0x0C |};
    ImageOff := 20;
    PaletteOff := 0;
    Image_ := {|
      Height := u16 height;
      Width := u16 width;
      Format := u32 (format_id format);
      DataOffset := 64;
      WrapS := 0;
      WrapT := 0;
      MinFilter := 1;
      MagFilter := 1;
      LODBias := 0;
      EdgeLOD := 0;
      MidLOD := 0;
      MaxLOD := 0;
      Unpacked := 0
    |}
  |} in
  let* buf := binary_Write buf tpl in
  Ok (buf ++ raw).

(** [addPadding]: Go's [%] is the truncating remainder. *)
Definition addPadding (value padding : Z) : Z :=
  if negb (Z.rem value padding =? 0)
  then int (value + int (padding - Z.rem value padding))
  else value.

(** [imageToRGBA]: the loop state is [(raw, idx)]. *)
Definition pack_texel (c : RGBA) : Z :=
  Z.lor (Z.lor (Z.lor (shl32 (Z.land (alpha c) 0xff) 24)
                      (shl32 (Z.land (red c) 0xff) 16))
               (shl32 (Z.land (green c) 0xff) 8))
        (shl32 (Z.land (blue c) 0xff) 0).

Definition imageToRGBA (img : Image) : result (list Z) :=
  let size := Bounds img in
  let* raw := make (int (int (X (Max size) - X (Min size))
                          * int (Y (Max size) - Y (Min size)))) in
  let idx := 0 in
  let* st :=
    for_ (Y (Min size)) (Y (Max size)) 1 (fun y =>
      for_ (X (Min size)) (X (Max size)) 1 (fun x '(raw, idx) =>
        let c := At img x y in
        let* raw := assign raw idx (pack_texel c) in
        Ok (raw, int (idx + 1))))
      (raw, idx) in
  Ok (fst st).

(** ** The encoders

    Each [To*] function is given in two parts: [To*_output] is the body up
    to the end of the loops (its result is the slice [output]), and [To*]
    passes it to [makeTPLHeader].  The loop state is the pair of [output]
    and the write cursor ([inp] or [z]). *)

Definition width_of (img : Image) : Z := X (Max (Bounds img)).
Definition height_of (img : Image) : Z := Y (Max (Bounds img)).

(** *** I4 *)

Definition I4_intensity (rgba : Z) : Z :=
  let r := Z.land (Z.shiftr rgba 0) 0xff in
  let g := Z.land (Z.shiftr rgba 8) 0xff in
  let b := Z.land (Z.shiftr rgba 16) 0xff in
  Z.land (add32 (add32 r g) b / 3) 0xff.

Definition I4_newPixel (raw : list Z) (width height x y : Z) : result Z :=
  if (x >=? width) || (y >=? height) then Ok 0
  else
    let* rgba := index raw (int (x + int (y * width))) in
    let i1 := I4_intensity rgba in
    let* rgba :=
      if int (int (x + int (y * width)) + 1) >=? len raw then Ok 0
      else index raw (int (int (x + int (y * width)) + 1)) in
    let i2 := I4_intensity rgba in
    Ok (u8 (Z.lor (shl32 (mul32 i1 15 / 255) 4)
                  (Z.land (mul32 i2 15 / 255) 0xf))).

Definition ToI4_output (img : Image) : result (list Z) :=
  let* raw := imageToRGBA img in
  let width := width_of img in
  let height := height_of img in
  let inp := 0 in
  let* output :=
    make (Z.quot (int (addPadding width 8 * addPadding height 8)) 2) in
  let* st :=
    for_ 0 height 8 (fun y1 =>
      for_ 0 width 8 (fun x1 =>
        for_ y1 (int (y1 + 8)) 1 (fun y =>
          for_ x1 (int (x1 + 8)) 2 (fun x '(output, inp) =>
            let* newPixel := I4_newPixel raw width height x y in
            let* output := assign output inp newPixel in
            Ok (output, int (inp + 1))))))
      (output, inp) in
  Ok (fst st).

Definition ToI4 (img : Image) : result (list Z) :=
  let* output := ToI4_output img in
  makeTPLHeader output I4 (width_of img) (height_of img).

(** *** IA4 *)

Definition IA4_texel (rgba : Z) : Z :=
  let r := Z.land (Z.shiftr rgba 0) 0xff in
  let g := Z.land (Z.shiftr rgba 8) 0xff in
  let b := Z.land (Z.shiftr rgba 16) 0xff in
  let i := Z.land (add32 (add32 r g) b / 3) 0xff in
  let a := Z.land (Z.shiftr rgba 24) 0xff in
  u8 (Z.lor (Z.land (mul32 i 15 / 255) 0xf) (shl32 (mul32 a 15 / 255) 4)).

Definition IA4_newPixel (raw : list Z) (width height x y : Z) : result Z :=
  if (y >=? height) || (x >=? width) then Ok 0
  else
    let* rgba := index raw (int (x + int (y * width))) in
    Ok (IA4_texel rgba).

Definition ToIA4_output (img : Image) : result (list Z) :=
  let* raw := imageToRGBA img in
  let width := width_of img in
  let height := height_of img in
  let inp := 0 in
  let* output := make (int (addPadding width 8 * addPadding height 4)) in
  let* st :=
    for_ 0 height 4 (fun y1 =>
      for_ 0 width 8 (fun x1 =>
        for_ y1 (int (y1 + 4)) 1 (fun y =>
          for_ x1 (int (x1 + 8)) 1 (fun x '(output, inp) =>
            let* newPixel := IA4_newPixel raw width height x y in
            let* output := assign output inp newPixel in
            Ok (output, int (inp + 1))))))
      (output, inp) in
  Ok (fst st).

Definition ToIA4 (img : Image) : result (list Z) :=
  let* output := ToIA4_output img in
  makeTPLHeader output IA4 (width_of img) (height_of img).

(** *** RGB5A3

    [newPixel] is an [int]; the channel arithmetic is [uint32].  The two
    writes and the advance of [z] are inside the [else] branch. *)

Definition RGB5A3_texel (rgba : Z) : Z :=
  let newPixel := 0 in
  let r := Z.land (Z.shiftr rgba 16) 0xff in
  let g := Z.land (Z.shiftr rgba 8) 0xff in
  let b := Z.land (Z.shiftr rgba 0) 0xff in
  let a := Z.land (Z.shiftr rgba 24) 0xff in
  if a <=? 0xda then
    let newPixel := Z.land newPixel (Z.lnot (Z.shiftl 1 15)) in
    let r := Z.land (mul32 r 15 / 255) 0xf in
    let g := Z.land (mul32 g 15 / 255) 0xf in
    let b := Z.land (mul32 b 15 / 255) 0xf in
    let a := Z.land (mul32 a 7 / 255) 0x7 in
    Z.lor newPixel
      (Z.lor (Z.lor (Z.lor (shl32 a 12) (shl32 r 8)) (shl32 g 4)) b)
  else
    let newPixel := Z.lor newPixel (Z.shiftl 1 15) in
    let r := Z.land (mul32 r 31 / 255) 0x1f in
    let g := Z.land (mul32 g 31 / 255) 0x1f in
    let b := Z.land (mul32 b 31 / 255) 0x1f in
    Z.lor newPixel (Z.lor (Z.lor (shl32 r 10) (shl32 g 5)) b).

Definition RGB5A3_step (raw : list Z) (width height x y : Z)
    (st : list Z * Z) : result (list Z * Z) :=
  let '(output, z) := st in
  if (y >=? height) || (x >=? width) then Ok (output, z)
  else
    let* rgba := index raw (int (x + int (y * width))) in
    let newPixel := RGB5A3_texel rgba in
    let z := int (z + 1) in
    let* output := assign output z (u8 (Z.shiftr newPixel 8)) in
    let z := int (z + 1) in
    let* output := assign output z (u8 (Z.land newPixel 0xff)) in
    Ok (output, z).

Definition ToRGB5A3_output (img : Image) : result (list Z) :=
  let* raw := imageToRGBA img in
  let width := width_of img in
  let height := height_of img in
  let z := -1 in
  let* output :=
    make (int (int (addPadding width 4 * addPadding height 4) * 2)) in
  let* st :=
    for_ 0 height 4 (fun y1 =>
      for_ 0 width 4 (fun x1 =>
        for_ y1 (int (y1 + 4)) 1 (fun y =>
          for_ x1 (int (x1 + 4)) 1 (fun x => RGB5A3_step raw width height x y))))
      (output, z) in
  Ok (fst st).

Definition ToRGB5A3 (img : Image) : result (list Z) :=
  let* output := ToRGB5A3_output img in
  makeTPLHeader output RGB5A3 (width_of img) (height_of img).

(** *** RGB565 *)

Definition RGB565_texel (rgb : Z) : Z :=
  let b := Z.land (Z.shiftr rgb 16) 0xff in
  let g := Z.land (Z.shiftr rgb 8) 0xff in
  let r := Z.land (Z.shiftr rgb 0) 0xff in
  u16 (Z.lor (Z.lor (shl32 (Z.shiftr r 3) 0) (shl32 (Z.shiftr g 2) 5))
             (shl32 (Z.shiftr b 3) 11)).

Definition RGB565_newPixel (raw : list Z) (width height x y : Z) : result Z :=
  if (y >=? height) || (x >=? width) then Ok 0
  else
    let* rgb := index raw (int (x + int (y * width))) in
    Ok (RGB565_texel rgb).

Definition RGB565_step (raw : list Z) (width height x y : Z)
    (st : list Z * Z) : result (list Z * Z) :=
  let '(output, z) := st in
  let* newPixel := RGB565_newPixel raw width height x y in
  let z := int (z + 1) in
  let* output := assign output z (u8 (Z.shiftr newPixel 8)) in
  let z := int (z + 1) in
  let* output := assign output z (u8 (Z.land newPixel 0xff)) in
  Ok (output, z).

Definition ToRGB565_output (img : Image) : result (list Z) :=
  let* raw := imageToRGBA img in
  let width := width_of img in
  let height := height_of img in
  let z := -1 in
  let* output :=
    make (int (int (addPadding width 4 * addPadding height 4) * 2)) in
  let* st :=
    for_ 0 height 4 (fun y1 =>
      for_ 0 width 4 (fun x1 =>
        for_ y1 (int (y1 + 4)) 1 (fun y =>
          for_ x1 (int (x1 + 4)) 1 (fun x => RGB565_step raw width height x y))))
      (output, z) in
  Ok (fst st).

Definition ToRGB565 (img : Image) : result (list Z) :=
  let* output := ToRGB565_output img in
  makeTPLHeader output RGB565 (width_of img) (height_of img).

(** ** The four exported conversions as one family *)

Inductive encoder : Type := EncI4 | EncIA4 | EncRGB565 | EncRGB5A3.

Definition To (e : encoder) : Image -> result (list Z) :=
  match e with
  | EncI4 => ToI4 | EncIA4 => ToIA4 | EncRGB565 => ToRGB565 | EncRGB5A3 => ToRGB5A3
  end.

Definition To_output (e : encoder) : Image -> result (list Z) :=
  match e with
  | EncI4 => ToI4_output | EncIA4 => ToIA4_output
  | EncRGB565 => ToRGB565_output | EncRGB5A3 => ToRGB5A3_output
  end.

Definition format_of (e : encoder) : TextureFormat :=
  match e with
  | EncI4 => I4 | EncIA4 => IA4 | EncRGB565 => RGB565 | EncRGB5A3 => RGB5A3
  end.

(** Block width, block height and bits per texel: the steps of the block
    loops and the sizes passed to [make]. *)
Definition block_w (e : encoder) : Z :=
  match e with EncI4 => 8 | EncIA4 => 8 | EncRGB565 => 4 | EncRGB5A3 => 4 end.

Definition block_h (e : encoder) : Z :=
  match e with EncI4 => 8 | EncIA4 => 4 | EncRGB565 => 4 | EncRGB5A3 => 4 end.

Definition bits_per_texel (e : encoder) : Z :=
  match e with EncI4 => 4 | EncIA4 => 8 | EncRGB565 => 16 | EncRGB5A3 => 16 end.

(** ** Test images *)

Definition mkImage (x0 y0 x1 y1 : Z) (at_ : Z -> Z -> RGBA) : Image :=
  {| Bounds := {| Min := {| X := x0; Y := y0 |}; Max := {| X := x1; Y := y1 |} |};
     At := at_ |}.

(** An 8-bit channel [c] as [RGBA()] reports it: [c * 0x101]. *)
Definition rgba8 (r g b a : Z) : RGBA :=
  {| red := r * 0x101; green := g * 0x101; blue := b * 0x101; alpha := a * 0x101 |}.

Definition uniform (w h : Z) (c : RGBA) : Image := mkImage 0 0 w h (fun _ _ => c).

(** ** Loops as folds over the list of index values *)

Definition range (lo hi step : Z) : list Z :=
  map (fun k => lo + Z.of_nat k * step)
      (seq 0 (Z.to_nat ((hi - lo + step - 1) / step))).

Fixpoint foldM {S : Type} (body : Z -> S -> result S) (l : list Z) (s : S)
    : result S :=
  match l with
  | [] => Ok s
  | i :: l' => let* s' := body i s in foldM body l' s'
  end.

(** The number of iterations of [for i := 0; i < v; i += b]. *)
Definition blocks (v b : Z) : nat := Z.to_nat ((v + b - 1) / b).

(** The bytes a loop nest writes: blocks in row-major order, and the
    texels of a block in row-major order. *)
Definition tiled {A : Type} (W H bw bh sx : Z) (f : Z -> Z -> list A) : list A :=
  flat_map (fun y1 =>
    flat_map (fun x1 =>
      flat_map (fun y =>
        flat_map (fun x => f x y) (range x1 (x1 + bw) sx))
        (range y1 (y1 + bh) 1))
      (range 0 W bw))
    (range 0 H bh).

(** [emits c m bs]: run on a buffer whose cursor is [c] past the end of
    the part written so far, [m] overwrites the next [length bs] cells
    with [bs] and advances the cursor by as much. *)
Definition emits (c : Z) (m : list Z * Z -> result (list Z * Z)) (bs : list Z) : Prop :=
  forall w old rest,
    length old = length bs -> len (w ++ old ++ rest) < 2 ^ 63 ->
    m (w ++ old ++ rest, len w + c) = Ok (w ++ bs ++ rest, len (w ++ bs) + c).

(** The texel array of an image, in the order [imageToRGBA] fills it. *)
Definition texels (img : Image) : list Z :=
  let size := Bounds img in
  flat_map (fun y =>
    flat_map (fun x => [pack_texel (At img x y)])
      (range (X (Min size)) (X (Max size)) 1))
    (range (Y (Min size)) (Y (Max size)) 1).

(** The low 8 bits of a channel, and the quantities the formats store. *)
Definition chan8 (v : Z) : Z := Z.land v 0xff.

Definition intensity (c : RGBA) : Z :=
  (chan8 (red c) + chan8 (green c) + chan8 (blue c)) / 3.

Definition quant (v top : Z) : Z := (v * top) / 255.

(** An image whose bounds start at the origin and are well-formed, of a
    size for which no [int] computation of the program wraps around. *)
Definition at_origin (img : Image) : Prop :=
  X (Min (Bounds img)) = 0 /\ Y (Min (Bounds img)) = 0 /\
  0 <= width_of img < 2 ^ 30 /\ 0 <= height_of img < 2 ^ 30.

(** The place of texel [(x, y)] in the block-tiled order: blocks of
    [bw] by [bh] texels in row-major order, the texels of a block in
    row-major order, [sx] texels per cell. *)
Definition tile_index (W bw bh sx x y : Z) : nat :=
  (((Z.to_nat (y / bh) * blocks W bw + Z.to_nat (x / bw)) * blocks bh 1
    + Z.to_nat (y mod bh)) * blocks bw sx + Z.to_nat (x mod bw / sx))%nat.

(** What each encoder stores for the position [(x, y)], in terms of the
    pixels of the image. *)
Definition I4_cell (img : Image) (x y : Z) : Z :=
  if (x >=? width_of img) || (y >=? height_of img) then 0
  else
    let next := default 0 (texels img !! Z.to_nat (x + y * width_of img + 1)) in
    quant (intensity (At img x y)) 15 * 16 + quant (I4_intensity next) 15.

Definition IA4_cell (img : Image) (x y : Z) : Z :=
  if (y >=? height_of img) || (x >=? width_of img) then 0
  else quant (chan8 (alpha (At img x y))) 15 * 16
       + quant (intensity (At img x y)) 15.

Definition RGB565_value (c : RGBA) : Z :=
  chan8 (red c) / 8 * 2 ^ 11 + chan8 (green c) / 4 * 2 ^ 5 + chan8 (blue c) / 8.

Definition RGB565_cell (img : Image) (x y : Z) : list Z :=
  if (y >=? height_of img) || (x >=? width_of img) then [0; 0]
  else [RGB565_value (At img x y) / 256; RGB565_value (At img x y) mod 256].

Definition RGB5A3_value (c : RGBA) : Z :=
  if chan8 (alpha c) <=? 0xda
  then quant (chan8 (alpha c)) 7 * 2 ^ 12 + quant (chan8 (red c)) 15 * 2 ^ 8
       + quant (chan8 (green c)) 15 * 2 ^ 4 + quant (chan8 (blue c)) 15
  else 2 ^ 15 + quant (chan8 (red c)) 31 * 2 ^ 10
       + quant (chan8 (green c)) 31 * 2 ^ 5 + quant (chan8 (blue c)) 31.

Definition RGB5A3_cell (img : Image) (x y : Z) : list Z :=
  if (y >=? height_of img) || (x >=? width_of img) then []
  else [RGB5A3_value (At img x y) / 256; RGB5A3_value (At img x y) mod 256].

(** The RGB565 packing as the specification words it: the image's red
    channel in the low bits and its blue channel in the high bits. *)
Definition RGB565_red_low (c : RGBA) : Z :=
  Z.lor (Z.lor (Z.shiftr (chan8 (red c)) 3)
               (Z.shiftl (Z.shiftr (chan8 (green c)) 2) 5))
        (Z.shiftl (Z.shiftr (chan8 (blue c)) 3) 11).

(** A call that returns no error value: it returns a result or panics. *)
Definition no_err {A : Type} (r : result A) : Prop := forall e, r <> Err e.

(** A call that returns a result or panics on an index out of range. *)
Definition ok_or_oor {A : Type} (r : result A) : Prop :=
  match r with
  | Ok _ => True
  | Panic IndexOutOfRange => True
  | _ => False
  end.

(** ** Lemmas: ranges and loops *)

Lemma range_nil lo hi step : 0 < step -> hi <= lo -> range lo hi step = [].
Proof.
  intros Hs Hle. unfold range.
  assert ((hi - lo + step - 1) / step <= 0) as Hq.
  { apply Z.lt_succ_r. apply Z.div_lt_upper_bound; lia. }
  replace (Z.to_nat ((hi - lo + step - 1) / step)) with O by lia.
  reflexivity.
Qed.

Lemma range_count_step lo hi step :
  0 < step -> lo < hi ->
  Z.to_nat ((hi - lo + step - 1) / step)
  = Datatypes.S (Z.to_nat ((hi - (lo + step) + step - 1) / step)).
Proof.
  intros Hs Hlt.
  replace (hi - lo + step - 1) with ((hi - (lo + step) + step - 1) + 1 * step) by lia.
  rewrite Z.div_add by lia.
  assert (0 <= (hi - (lo + step) + step - 1) / step).
  { apply Z.div_pos; lia. }
  lia.
Qed.

Lemma range_cons lo hi step :
  0 < step -> lo < hi -> range lo hi step = lo :: range (lo + step) hi step.
Proof.
  intros Hs Hlt. unfold range.
  rewrite (range_count_step lo hi step) by assumption.
  cbn [seq map]. f_equal; [lia|].
  rewrite <- seq_shift, map_map.
  apply map_ext. intros k. lia.
Qed.

Lemma length_range lo hi step :
  length (range lo hi step) = Z.to_nat ((hi - lo + step - 1) / step).
Proof. unfold range. now rewrite length_map, length_seq. Qed.

Lemma lookup_range lo hi step (k : nat) :
  (k < length (range lo hi step))%nat ->
  range lo hi step !! k = Some (lo + Z.of_nat k * step).
Proof.
  intros Hk. rewrite length_range in Hk. unfold range.
  rewrite list_lookup_fmap, lookup_seq_lt by assumption. reflexivity.
Qed.

Lemma elem_of_range lo hi step i :
  0 < step -> i ∈ range lo hi step ->
  lo <= i < hi /\ exists k : nat, i = lo + Z.of_nat k * step.
Proof.
  intros Hs Hin. unfold range in Hin.
  apply list_elem_of_fmap in Hin as (k & -> & Hk).
  apply elem_of_seq in Hk. split; [|eauto].
  split; [nia|].
  assert (Z.of_nat k < (hi - lo + step - 1) / step) as Hlt by lia.
  assert (Z.of_nat k + 1 <= (hi - lo + step - 1) / step) as Hle by lia.
  pose proof (Z.mul_div_le (hi - lo + step - 1) step Hs). nia.
Qed.

Lemma int_small z : - 2 ^ 63 <= z < 2 ^ 63 -> int z = z.
Proof. intros Hz. unfold int. rewrite Z.mod_small by lia. lia. Qed.

Lemma loop_foldM {S : Type} (body : Z -> S -> result S) step hi :
  0 < step -> hi + step <= 2 ^ 63 ->
  forall fuel i s, - 2 ^ 63 <= i -> hi - i <= Z.of_nat fuel ->
    loop fuel i hi step body s = foldM body (range i hi step) s.
Proof.
  intros Hs Hhi. induction fuel as [|fuel IH]; intros i s Hi Hf; cbn [loop].
  - destruct (Z.ltb_spec i hi); [lia|]. rewrite range_nil by lia. reflexivity.
  - destruct (Z.ltb_spec i hi) as [Hlt|Hge].
    + rewrite range_cons, int_small by lia. cbn [foldM].
      destruct (body i s) as [s'| | |]; cbn [bind]; try reflexivity.
      apply IH; lia.
    + rewrite range_nil by lia. reflexivity.
Qed.

Lemma for_foldM {S : Type} (body : Z -> S -> result S) lo hi step s :
  0 < step -> - 2 ^ 63 <= lo -> hi + step <= 2 ^ 63 ->
  for_ lo hi step body s = foldM body (range lo hi step) s.
Proof. intros Hs Hlo Hhi. unfold for_. apply loop_foldM; lia. Qed.

(** The loop equation of [for_]. *)
Lemma for_unfold {S : Type} (body : Z -> S -> result S) lo hi step s :
  0 < step -> - 2 ^ 63 <= lo -> hi + step <= 2 ^ 63 ->
  for_ lo hi step body s
  = if lo <? hi then let* s' := body lo s in for_ (lo + step) hi step body s'
    else Ok s.
Proof.
  intros Hs Hlo Hhi. rewrite for_foldM by assumption.
  destruct (Z.ltb_spec lo hi).
  - rewrite range_cons by assumption. cbn [foldM].
    destruct (body lo s); cbn [bind]; try reflexivity.
    rewrite for_foldM by lia. reflexivity.
  - now rewrite range_nil.
Qed.

(** ** Lemmas: sequential writes into a buffer *)

Lemma len_app {A : Type} (l1 l2 : list A) : len (l1 ++ l2) = len l1 + len l2.
Proof. unfold len. rewrite length_app. lia. Qed.

Lemma len_nonneg {A : Type} (l : list A) : 0 <= len l.
Proof. unfold len. lia. Qed.

Lemma assign_next (w rest : list Z) (o v : Z) :
  assign (w ++ o :: rest) (len w) v = Ok (w ++ v :: rest).
Proof.
  unfold assign, len. rewrite length_app. cbn [length].
  destruct (Z.ltb_spec (Z.of_nat (length w)) 0); [lia|].
  destruct (Z.leb_spec (Z.of_nat (length w + Datatypes.S (length rest)))
              (Z.of_nat (length w))); [lia|].
  cbn [orb]. f_equal.
  rewrite Nat2Z.id, insert_app_r_alt by lia.
  now rewrite Nat.sub_diag.
Qed.

Lemma emits_nil c : emits c Ok [].
Proof.
  intros w old rest Hlen _. destruct old; [|discriminate].
  cbn [app]. now rewrite app_nil_r.
Qed.

Lemma emits_bind c m1 m2 b1 b2 :
  emits c m1 b1 -> emits c m2 b2 ->
  emits c (fun s => let* s' := m1 s in m2 s') (b1 ++ b2).
Proof.
  intros H1 H2 w old rest Hlen Hmax. rewrite length_app in Hlen.
  rewrite <- (take_drop (length b1) old), <- app_assoc in Hmax |- *.
  assert (length (take (length b1) old) = length b1) as Ht
    by (rewrite length_take; lia).
  rewrite H1 by assumption. cbn [bind].
  rewrite (app_assoc w b1), H2.
  - now rewrite <- !app_assoc.
  - rewrite length_drop. lia.
  - rewrite !len_app in Hmax |- *. unfold len in *. lia.
Qed.

Lemma emits_foldM c body (f : Z -> list Z) l :
  (forall i, i ∈ l -> emits c (body i) (f i)) ->
  emits c (foldM body l) (flat_map f l).
Proof.
  induction l as [|i l IH]; intros Hb; cbn [foldM flat_map].
  - apply emits_nil.
  - apply emits_bind.
    + apply Hb. left.
    + apply IH. intros j Hj. apply Hb. now right.
Qed.

Lemma emits_ext c m1 m2 bs :
  (forall s, m1 s = m2 s) -> emits c m2 bs -> emits c m1 bs.
Proof. intros Heq H w old rest Hlen Hmax. rewrite Heq. now apply H. Qed.

Lemma emits_for c body (f : Z -> list Z) lo hi step :
  0 < step -> - 2 ^ 63 <= lo -> hi + step <= 2 ^ 63 ->
  (forall i, i ∈ range lo hi step -> emits c (body i) (f i)) ->
  emits c (for_ lo hi step body) (flat_map f (range lo hi step)).
Proof.
  intros Hs Hlo Hhi Hb. eapply emits_ext.
  - intros s. now apply for_foldM.
  - now apply emits_foldM.
Qed.

Lemma emits_tiled c body (f : Z -> Z -> list Z) W H bw bh sx :
  0 < bw < 2 ^ 61 -> 0 < bh < 2 ^ 61 -> 0 < sx < 2 ^ 61 ->
  W < 2 ^ 61 -> H < 2 ^ 61 ->
  (forall x y, 0 <= x -> 0 <= y -> emits c (body x y) (f x y)) ->
  emits c
    (for_ 0 H bh (fun y1 =>
       for_ 0 W bw (fun x1 =>
         for_ y1 (int (y1 + bh)) 1 (fun y =>
           for_ x1 (int (x1 + bw)) sx (fun x => body x y)))))
    (tiled W H bw bh sx f).
Proof.
  intros Hbw Hbh Hsx HW HH Hb. unfold tiled.
  apply emits_for; [lia..|]. intros y1 Hy1.
  apply elem_of_range in Hy1 as [Hy1 _]; [|lia].
  rewrite (int_small (y1 + bh)) by lia.
  apply emits_for; [lia..|]. intros x1 Hx1.
  apply elem_of_range in Hx1 as [Hx1 _]; [|lia].
  rewrite (int_small (x1 + bw)) by lia.
  apply emits_for; [lia..|]. intros y Hy.
  apply elem_of_range in Hy as [Hy _]; [|lia].
  apply emits_for; [lia..|]. intros x Hx.
  apply elem_of_range in Hx as [Hx _]; [|lia].
  apply Hb; lia.
Qed.

(** One cell written at the cursor, then the cursor advanced ([inp]). *)
Lemma emits_inp (np : result Z) (v : Z) :
  np = Ok v ->
  emits 0 (fun '(output, inp) =>
             let* newPixel := np in
             let* output := assign output inp newPixel in
             Ok (output, int (inp + 1))) [v].
Proof.
  intros -> w old rest Hlen Hmax.
  destruct old as [|o [|? ?]]; try discriminate.
  cbn [bind app] in *. rewrite Z.add_0_r, assign_next. cbn [bind].
  rewrite !len_app in *. change (len [v]) with 1.
  pose proof (len_nonneg w). pose proof (len_nonneg rest).
  change (len (o :: rest)) with (Z.of_nat (Datatypes.S (length rest))) in Hmax.
  unfold len in *. rewrite int_small by lia. do 2 f_equal. lia.
Qed.

(** The cursor advanced, then one cell written, twice ([z]). *)
Lemma emits_z (v1 v2 : Z) :
  emits (-1) (fun '(output, z) =>
                let z := int (z + 1) in
                let* output := assign output z v1 in
                let z := int (z + 1) in
                let* output := assign output z v2 in
                Ok (output, z)) [v1; v2].
Proof.
  intros w old rest Hlen Hmax.
  destruct old as [|o1 [|o2 [|? ?]]]; try discriminate.
  cbn [app] in *. cbv zeta.
  pose proof (len_nonneg w). pose proof (len_nonneg rest).
  rewrite !len_app in Hmax.
  change (len (o1 :: o2 :: rest))
    with (Z.of_nat (Datatypes.S (Datatypes.S (length rest)))) in Hmax.
  replace (len w + -1 + 1) with (len w) by lia.
  rewrite (int_small (len w)) by (unfold len in *; lia).
  rewrite assign_next. cbn [bind].
  rewrite (int_small (len w + 1)) by (unfold len in *; lia).
  replace (len w + 1) with (len (w ++ [v1])) by (rewrite len_app; reflexivity).
  replace (w ++ v1 :: o2 :: rest) with ((w ++ [v1]) ++ o2 :: rest)
    by (now rewrite <- app_assoc).
  rewrite assign_next. cbn [bind].
  rewrite <- app_assoc. cbn [app]. do 2 f_equal.
  rewrite !len_app. change (len [v1]) with 1. change (len [v1; v2]) with 2. lia.
Qed.

(** Running an emitting loop nest on a fresh buffer. *)
Lemma emits_fresh c m bs (n : Z) :
  emits c m bs -> len bs <= n -> n < 2 ^ 63 ->
  (let* output := make n in
   let* st := m (output, c) in
   Ok (fst st))
  = Ok (bs ++ replicate (Z.to_nat n - length bs) 0).
Proof.
  intros Hm Hn Hmax. pose proof (len_nonneg bs). unfold make.
  destruct (Z.ltb_spec n 0); [lia|]. cbn [bind].
  assert (Z.to_nat n = length bs + (Z.to_nat n - length bs))%nat as Hsplit
    by (unfold len in *; lia).
  rewrite Hsplit at 1. rewrite replicate_add.
  specialize (Hm [] (replicate (length bs) 0)
                 (replicate (Z.to_nat n - length bs) 0)).
  cbn [app] in Hm. change (len []) with 0 in Hm. rewrite Z.add_0_l in Hm.
  rewrite Hm; [reflexivity|apply length_replicate|].
  rewrite len_app. unfold len in *. rewrite !length_replicate. lia.
Qed.

(** ** Lemmas: lists cut into chunks of one size *)

Lemma length_flat_map_uniform {A B : Type} (f : A -> list B) (l : list A) (L : nat) :
  (forall a, a ∈ l -> length (f a) = L) ->
  length (flat_map f l) = (length l * L)%nat.
Proof.
  induction l as [|a l IH]; intros Hf; cbn [flat_map length]; [reflexivity|].
  rewrite length_app, Hf, IH; [lia| |left].
  intros b Hb. apply Hf. now right.
Qed.

Lemma length_flat_map_le {A B : Type} (f : A -> list B) (l : list A) (L : nat) :
  (forall a, a ∈ l -> (length (f a) <= L)%nat) ->
  (length (flat_map f l) <= length l * L)%nat.
Proof.
  induction l as [|a l IH]; intros Hf; cbn [flat_map length]; [lia|].
  rewrite length_app.
  assert (length (f a) <= L)%nat by (apply Hf; left).
  assert (length (flat_map f l) <= length l * L)%nat.
  { apply IH. intros b Hb. apply Hf. now right. }
  lia.
Qed.

Lemma lookup_flat_map_uniform {A B : Type} (f : A -> list B) (l : list A)
    (L i k : nat) (a : A) :
  (forall b, b ∈ l -> length (f b) = L) ->
  l !! i = Some a -> (k < L)%nat ->
  flat_map f l !! (i * L + k)%nat = f a !! k.
Proof.
  revert i. induction l as [|b l IH]; intros i Hf Hi Hk; [discriminate|].
  cbn [flat_map]. destruct i as [|i].
  - injection Hi as ->. cbn [Nat.mul Nat.add].
    apply lookup_app_l. rewrite Hf; [assumption|left].
  - cbn [lookup list_lookup] in Hi.
    rewrite lookup_app_r by (rewrite Hf; [lia|left]).
    rewrite Hf by left.
    replace (Datatypes.S i * L + k - L)%nat with (i * L + k)%nat by lia.
    apply IH; [|assumption..].
    intros c Hc. apply Hf. now right.
Qed.

Lemma flat_map_split {A B : Type} (f : A -> list B) (l : list A) (a : A) :
  a ∈ l -> exists l1 l2, flat_map f l = l1 ++ f a ++ l2.
Proof.
  intros Hin. apply list_elem_of_split in Hin as (la & lb & ->).
  exists (flat_map f la), (flat_map f lb).
  now rewrite flat_map_app.
Qed.

(** ** Lemmas: [addPadding] and the number of blocks *)

Lemma length_range_0 v b : length (range 0 v b) = blocks v b.
Proof. rewrite length_range. unfold blocks. do 2 f_equal. lia. Qed.

Lemma length_range_block lo b s :
  length (range lo (lo + b) s) = blocks b s.
Proof. rewrite length_range. unfold blocks. do 2 f_equal. lia. Qed.

Lemma addPadding_blocks v b :
  0 <= v < 2 ^ 61 -> 0 < b < 2 ^ 61 -> addPadding v b = b * ((v + b - 1) / b).
Proof.
  intros Hv Hb. unfold addPadding.
  rewrite Z.rem_mod_nonneg by lia.
  pose proof (Z.div_mod v b ltac:(lia)) as Hdm.
  pose proof (Z.mod_pos_bound v b ltac:(lia)) as Hr.
  destruct (Z.eqb_spec (v mod b) 0) as [H0|Hn0]; cbn [negb].
  - rewrite <- (Z.div_unique (v + b - 1) b (v / b) (b - 1)) by lia. lia.
  - rewrite (int_small (b - v mod b)), int_small by lia.
    replace (v + (b - v mod b)) with (b * (v / b + 1)) by lia.
    f_equal.
    apply (Z.div_unique (v + b - 1) b (v / b + 1) (v mod b - 1)); lia.
Qed.

Lemma addPadding_blocks_nat v b :
  0 <= v < 2 ^ 61 -> 0 < b < 2 ^ 61 -> addPadding v b = b * Z.of_nat (blocks v b).
Proof.
  intros Hv Hb. rewrite addPadding_blocks by assumption. unfold blocks.
  rewrite Z2Nat.id; [reflexivity|]. apply Z.div_pos; lia.
Qed.

(** [addPadding] rounds up to the next multiple and fixes the multiples. *)
Lemma addPadding_spec v b :
  0 <= v < 2 ^ 61 -> 0 < b < 2 ^ 61 ->
  (addPadding v b) mod b = 0 /\ v <= addPadding v b < v + b /\
  (v mod b = 0 -> addPadding v b = v).
Proof.
  intros Hv Hb. split; [|split].
  - rewrite addPadding_blocks by assumption.
    rewrite Z.mul_comm. apply Z.mod_mul. lia.
  - rewrite addPadding_blocks by assumption.
    pose proof (Z.div_mod (v + b - 1) b ltac:(lia)).
    pose proof (Z.mod_pos_bound (v + b - 1) b ltac:(lia)). lia.
  - intros H0. unfold addPadding. rewrite Z.rem_mod_nonneg by lia.
    rewrite H0. reflexivity.
Qed.

(** ** Lemmas: the tiled output *)

Lemma length_tiled {A : Type} (f : Z -> Z -> list A) W H bw bh sx (L : nat) :
  (forall x y, length (f x y) = L) ->
  length (tiled W H bw bh sx f)
  = (blocks H bh * (blocks W bw * (blocks bh 1 * (blocks bw sx * L))))%nat.
Proof.
  intros Hf. unfold tiled.
  rewrite (length_flat_map_uniform _ _ (blocks W bw * (blocks bh 1 * (blocks bw sx * L)))).
  { now rewrite length_range_0. }
  intros y1 _.
  rewrite (length_flat_map_uniform _ _ (blocks bh 1 * (blocks bw sx * L))).
  { now rewrite length_range_0. }
  intros x1 _.
  rewrite (length_flat_map_uniform _ _ (blocks bw sx * L)).
  { now rewrite length_range_block. }
  intros y _.
  rewrite (length_flat_map_uniform _ _ L).
  { now rewrite length_range_block. }
  intros x _. apply Hf.
Qed.

Lemma length_tiled_le {A : Type} (f : Z -> Z -> list A) W H bw bh sx (L : nat) :
  (forall x y, (length (f x y) <= L)%nat) ->
  (length (tiled W H bw bh sx f)
   <= blocks H bh * (blocks W bw * (blocks bh 1 * (blocks bw sx * L))))%nat.
Proof.
  intros Hf. unfold tiled.
  etransitivity; [apply (length_flat_map_le _ _ (blocks W bw * (blocks bh 1 * (blocks bw sx * L))))|].
  2: { now rewrite length_range_0. }
  intros y1 _.
  etransitivity; [apply (length_flat_map_le _ _ (blocks bh 1 * (blocks bw sx * L)))|].
  2: { now rewrite length_range_0. }
  intros x1 _.
  etransitivity; [apply (length_flat_map_le _ _ (blocks bw sx * L))|].
  2: { now rewrite length_range_block. }
  intros y _.
  etransitivity; [apply (length_flat_map_le _ _ L)|].
  2: { now rewrite length_range_block. }
  intros x _. apply Hf.
Qed.

(** The cell [k] of texel [dx, dy] of block [bx, by]. *)
Lemma lookup_tiled {A : Type} (f : Z -> Z -> list A) W H bw bh sx
    (L by_ bx dy dx k : nat) :
  (forall x y, length (f x y) = L) ->
  (by_ < blocks H bh)%nat -> (bx < blocks W bw)%nat ->
  (dy < blocks bh 1)%nat -> (dx < blocks bw sx)%nat -> (k < L)%nat ->
  tiled W H bw bh sx f
    !! ((((by_ * blocks W bw + bx) * blocks bh 1 + dy) * blocks bw sx + dx) * L + k)%nat
  = f (0 + Z.of_nat bx * bw + Z.of_nat dx * sx)
      (0 + Z.of_nat by_ * bh + Z.of_nat dy * 1) !! k.
Proof.
  intros Hf Hby Hbx Hdy Hdx Hk. unfold tiled.
  set (Lx := (blocks bw sx * L)%nat).
  set (Ly := (blocks bh 1 * Lx)%nat).
  set (Lb := (blocks W bw * Ly)%nat).
  assert (forall y x1, length (flat_map (fun x => f x y) (range x1 (x1 + bw) sx)) = Lx) as HLx.
  { intros y x1. rewrite (length_flat_map_uniform _ _ L) by (intros; apply Hf).
    now rewrite length_range_block. }
  assert (forall x1 y1, length (flat_map (fun y =>
            flat_map (fun x => f x y) (range x1 (x1 + bw) sx))
            (range y1 (y1 + bh) 1)) = Ly) as HLy.
  { intros x1 y1. rewrite (length_flat_map_uniform _ _ Lx) by (intros; apply HLx).
    now rewrite length_range_block. }
  assert (forall y1, length (flat_map (fun x1 => flat_map (fun y =>
            flat_map (fun x => f x y) (range x1 (x1 + bw) sx))
            (range y1 (y1 + bh) 1)) (range 0 W bw)) = Lb) as HLb.
  { intros y1. rewrite (length_flat_map_uniform _ _ Ly) by (intros; apply HLy).
    now rewrite length_range_0. }
  replace ((((by_ * blocks W bw + bx) * blocks bh 1 + dy) * blocks bw sx + dx) * L + k)%nat
    with (by_ * Lb + (bx * Ly + (dy * Lx + (dx * L + k))))%nat
    by (unfold Lb, Ly, Lx; lia).
  assert (dx * L + k < Lx)%nat by (unfold Lx; nia).
  assert (dy * Lx + (dx * L + k) < Ly)%nat by (unfold Ly; nia).
  assert (bx * Ly + (dy * Lx + (dx * L + k)) < Lb)%nat by (unfold Lb; nia).
  rewrite (lookup_flat_map_uniform _ _ Lb by_ _ (0 + Z.of_nat by_ * bh));
    [|intros; apply HLb|apply lookup_range; now rewrite length_range_0|assumption].
  rewrite (lookup_flat_map_uniform _ _ Ly bx _ (0 + Z.of_nat bx * bw));
    [|intros; apply HLy|apply lookup_range; now rewrite length_range_0|assumption].
  rewrite (lookup_flat_map_uniform _ _ Lx dy _ (0 + Z.of_nat by_ * bh + Z.of_nat dy * 1));
    [|intros; apply HLx|apply lookup_range; now rewrite length_range_block|assumption].
  rewrite (lookup_flat_map_uniform _ _ L dx _ (0 + Z.of_nat bx * bw + Z.of_nat dx * sx));
    [|intros; apply Hf|apply lookup_range; now rewrite length_range_block|assumption].
  reflexivity.
Qed.

(** ** Lemmas: bit fields as arithmetic *)

Lemma land_ff v : Z.land v 0xff = v mod 256.
Proof. change 0xff with (Z.ones 8). now rewrite Z.land_ones by lia. Qed.

Lemma chan8_range v : 0 <= chan8 v < 256.
Proof. unfold chan8. rewrite land_ff. apply Z.mod_pos_bound. lia. Qed.

Lemma land_shiftl_low hi lo n :
  0 <= n -> 0 <= lo < 2 ^ n -> Z.land (Z.shiftl hi n) lo = 0.
Proof.
  intros Hn Hlo. apply Z.bits_inj'. intros m Hm.
  rewrite Z.land_spec, Z.bits_0.
  destruct (Z.lt_ge_cases m n) as [Hlt|Hge].
  - rewrite Z.shiftl_spec_low by assumption. reflexivity.
  - rewrite <- (Z.mod_small lo (2 ^ n)) by assumption.
    rewrite Z.mod_pow2_bits_high by lia. apply andb_false_r.
Qed.

Lemma lor_shiftl_low hi lo n :
  0 <= n -> 0 <= lo < 2 ^ n -> Z.lor (Z.shiftl hi n) lo = hi * 2 ^ n + lo.
Proof.
  intros Hn Hlo.
  rewrite <- Z.add_nocarry_lor by now apply land_shiftl_low.
  now rewrite Z.shiftl_mul_pow2.
Qed.

Lemma lor_low hi lo n :
  0 <= n -> 0 <= lo < 2 ^ n -> Z.lor (hi * 2 ^ n) lo = hi * 2 ^ n + lo.
Proof.
  intros Hn Hlo. rewrite <- (lor_shiftl_low hi lo n) by assumption.
  now rewrite Z.shiftl_mul_pow2.
Qed.

Lemma shl32_small a n :
  0 <= n -> 0 <= a -> a * 2 ^ n < 2 ^ 32 -> shl32 a n = a * 2 ^ n.
Proof.
  intros Hn Ha Hlt. unfold shl32, u32.
  rewrite Z.shiftl_mul_pow2 by assumption.
  apply Z.mod_small. split; [|assumption].
  apply Z.mul_nonneg_nonneg; [assumption|]. apply Z.pow_nonneg. lia.
Qed.

Lemma mul32_small a b :
  0 <= a -> 0 <= b -> a * b < 2 ^ 32 -> mul32 a b = a * b.
Proof.
  intros Ha Hb Hlt. unfold mul32, u32. apply Z.mod_small. split; [nia|assumption].
Qed.

Lemma add32_small a b :
  0 <= a -> 0 <= b -> a + b < 2 ^ 32 -> add32 a b = a + b.
Proof.
  intros Ha Hb Hlt. unfold add32, u32. apply Z.mod_small. lia.
Qed.

(** The packed texel as a sum of its four fields. *)
Lemma pack_texel_sum c :
  pack_texel c
  = chan8 (alpha c) * 2 ^ 24 + chan8 (red c) * 2 ^ 16
    + chan8 (green c) * 2 ^ 8 + chan8 (blue c).
Proof.
  unfold pack_texel. fold (chan8 (alpha c)) (chan8 (red c)) (chan8 (green c)) (chan8 (blue c)).
  pose proof (chan8_range (alpha c)). pose proof (chan8_range (red c)).
  pose proof (chan8_range (green c)). pose proof (chan8_range (blue c)).
  rewrite !shl32_small by lia.
  rewrite (lor_low (chan8 (alpha c)) (chan8 (red c) * 2 ^ 16) 24) by lia.
  replace (chan8 (alpha c) * 2 ^ 24 + chan8 (red c) * 2 ^ 16)
    with ((chan8 (alpha c) * 2 ^ 8 + chan8 (red c)) * 2 ^ 16) by lia.
  rewrite (lor_low _ (chan8 (green c) * 2 ^ 8) 16) by lia.
  replace ((chan8 (alpha c) * 2 ^ 8 + chan8 (red c)) * 2 ^ 16 + chan8 (green c) * 2 ^ 8)
    with ((chan8 (alpha c) * 2 ^ 16 + chan8 (red c) * 2 ^ 8 + chan8 (green c)) * 2 ^ 8)
    by lia.
  rewrite (lor_low _ (chan8 (blue c) * 2 ^ 0) 8) by lia.
  lia.
Qed.

(** Field [k] (8 bits wide, at bit [8 * k]) of a packed texel. *)
Lemma field_blue c : Z.land (Z.shiftr (pack_texel c) 0) 0xff = chan8 (blue c).
Proof.
  rewrite land_ff, Z.shiftr_div_pow2, pack_texel_sum by lia.
  pose proof (chan8_range (alpha c)). pose proof (chan8_range (red c)).
  pose proof (chan8_range (green c)). pose proof (chan8_range (blue c)).
  Z.div_mod_to_equations. lia.
Qed.

Lemma field_green c : Z.land (Z.shiftr (pack_texel c) 8) 0xff = chan8 (green c).
Proof.
  rewrite land_ff, Z.shiftr_div_pow2, pack_texel_sum by lia.
  pose proof (chan8_range (alpha c)). pose proof (chan8_range (red c)).
  pose proof (chan8_range (green c)). pose proof (chan8_range (blue c)).
  Z.div_mod_to_equations. lia.
Qed.

Lemma field_red c : Z.land (Z.shiftr (pack_texel c) 16) 0xff = chan8 (red c).
Proof.
  rewrite land_ff, Z.shiftr_div_pow2, pack_texel_sum by lia.
  pose proof (chan8_range (alpha c)). pose proof (chan8_range (red c)).
  pose proof (chan8_range (green c)). pose proof (chan8_range (blue c)).
  Z.div_mod_to_equations. lia.
Qed.

Lemma field_alpha c : Z.land (Z.shiftr (pack_texel c) 24) 0xff = chan8 (alpha c).
Proof.
  rewrite land_ff, Z.shiftr_div_pow2, pack_texel_sum by lia.
  pose proof (chan8_range (alpha c)). pose proof (chan8_range (red c)).
  pose proof (chan8_range (green c)). pose proof (chan8_range (blue c)).
  Z.div_mod_to_equations. lia.
Qed.

Ltac chan_ranges c :=
  pose proof (chan8_range (alpha c)); pose proof (chan8_range (red c));
  pose proof (chan8_range (green c)); pose proof (chan8_range (blue c)).

Lemma land_ones_small v n : 0 <= n -> 0 <= v < 2 ^ n -> Z.land v (Z.ones n) = v.
Proof. intros Hn Hv. rewrite Z.land_ones by assumption. now apply Z.mod_small. Qed.

Lemma land_small_0xf v : 0 <= v < 16 -> Z.land v 0xf = v.
Proof. intros Hv. apply (land_ones_small v 4); lia. Qed.

Lemma land_small_0x7 v : 0 <= v < 8 -> Z.land v 0x7 = v.
Proof. intros Hv. apply (land_ones_small v 3); lia. Qed.

Lemma land_small_0x1f v : 0 <= v < 32 -> Z.land v 0x1f = v.
Proof. intros Hv. apply (land_ones_small v 5); lia. Qed.

Lemma quant_range v top : 0 <= v <= 255 -> 0 <= top -> 0 <= quant v top <= top.
Proof.
  intros Hv Ht. unfold quant. split.
  - apply Z.div_pos; nia.
  - apply Z.div_le_upper_bound; nia.
Qed.

Lemma intensity_range c : 0 <= intensity c <= 255.
Proof.
  unfold intensity. chan_ranges c. split.
  - apply Z.div_pos; lia.
  - apply Z.div_le_upper_bound; lia.
Qed.

(** *** The value each encoder computes for a texel *)

Lemma I4_intensity_pack c : I4_intensity (pack_texel c) = intensity c.
Proof.
  unfold I4_intensity. cbv zeta.
  rewrite field_blue, field_green, field_red.
  chan_ranges c.
  rewrite (add32_small (chan8 (blue c)) (chan8 (green c))) by lia.
  rewrite add32_small by lia.
  pose proof (intensity_range c) as Hi. unfold intensity in *.
  replace (chan8 (blue c) + chan8 (green c) + chan8 (red c))
    with (chan8 (red c) + chan8 (green c) + chan8 (blue c)) by lia.
  rewrite land_ff. apply Z.mod_small. lia.
Qed.

Lemma I4_byte_value i1 i2 :
  0 <= i1 <= 255 -> 0 <= i2 <= 255 ->
  u8 (Z.lor (shl32 (mul32 i1 15 / 255) 4) (Z.land (mul32 i2 15 / 255) 0xf))
  = quant i1 15 * 16 + quant i2 15.
Proof.
  intros H1 H2. rewrite !mul32_small by lia. fold (quant i1 15) (quant i2 15).
  pose proof (quant_range i1 15 H1 ltac:(lia)).
  pose proof (quant_range i2 15 H2 ltac:(lia)).
  rewrite shl32_small by lia.
  rewrite land_small_0xf by lia.
  rewrite lor_low by lia. unfold u8. apply Z.mod_small. lia.
Qed.

Lemma IA4_texel_pack c :
  IA4_texel (pack_texel c)
  = quant (chan8 (alpha c)) 15 * 16 + quant (intensity c) 15.
Proof.
  unfold IA4_texel. cbv zeta.
  change (Z.land (add32 (add32 (Z.land (Z.shiftr (pack_texel c) 0) 0xff)
                               (Z.land (Z.shiftr (pack_texel c) 8) 0xff))
                        (Z.land (Z.shiftr (pack_texel c) 16) 0xff) / 3) 0xff)
    with (I4_intensity (pack_texel c)).
  rewrite I4_intensity_pack, field_alpha.
  pose proof (intensity_range c) as Hi. pose proof (chan8_range (alpha c)) as Ha.
  rewrite !mul32_small by lia.
  fold (quant (intensity c) 15) (quant (chan8 (alpha c)) 15).
  pose proof (quant_range (intensity c) 15 Hi ltac:(lia)).
  pose proof (quant_range (chan8 (alpha c)) 15 ltac:(lia) ltac:(lia)).
  rewrite shl32_small by lia.
  rewrite land_small_0xf by lia.
  rewrite Z.lor_comm, lor_low by lia. unfold u8. apply Z.mod_small. lia.
Qed.

Lemma RGB565_texel_pack c :
  RGB565_texel (pack_texel c) = RGB565_value c.
Proof.
  unfold RGB565_texel, RGB565_value. cbv zeta.
  rewrite field_blue, field_green, field_red.
  chan_ranges c.
  rewrite !Z.shiftr_div_pow2 by lia.
  change (2 ^ 3) with 8. change (2 ^ 2) with 4.
  assert (0 <= chan8 (red c) / 8 < 32) by (Z.div_mod_to_equations; lia).
  assert (0 <= chan8 (green c) / 4 < 64) by (Z.div_mod_to_equations; lia).
  assert (0 <= chan8 (blue c) / 8 < 32) by (Z.div_mod_to_equations; lia).
  rewrite !shl32_small by lia.
  rewrite (Z.lor_comm (chan8 (blue c) / 8 * 2 ^ 0)).
  rewrite (lor_low _ (chan8 (blue c) / 8 * 2 ^ 0) 5) by lia.
  rewrite Z.lor_comm.
  rewrite (lor_low _ _ 11) by lia.
  unfold u16. rewrite Z.mod_small by lia. lia.
Qed.

Lemma RGB5A3_texel_pack c :
  RGB5A3_texel (pack_texel c) = RGB5A3_value c.
Proof.
  unfold RGB5A3_texel, RGB5A3_value. cbv zeta.
  rewrite field_blue, field_green, field_red, field_alpha.
  chan_ranges c.
  rewrite !mul32_small by lia.
  fold (quant (chan8 (alpha c)) 7).
  fold (quant (chan8 (red c)) 15) (quant (chan8 (green c)) 15) (quant (chan8 (blue c)) 15).
  fold (quant (chan8 (red c)) 31) (quant (chan8 (green c)) 31) (quant (chan8 (blue c)) 31).
  pose proof (quant_range (chan8 (alpha c)) 7 ltac:(lia) ltac:(lia)).
  pose proof (quant_range (chan8 (red c)) 15 ltac:(lia) ltac:(lia)).
  pose proof (quant_range (chan8 (green c)) 15 ltac:(lia) ltac:(lia)).
  pose proof (quant_range (chan8 (blue c)) 15 ltac:(lia) ltac:(lia)).
  pose proof (quant_range (chan8 (red c)) 31 ltac:(lia) ltac:(lia)).
  pose proof (quant_range (chan8 (green c)) 31 ltac:(lia) ltac:(lia)).
  pose proof (quant_range (chan8 (blue c)) 31 ltac:(lia) ltac:(lia)).
  destruct (chan8 (alpha c) <=? 0xda).
  - rewrite Z.land_0_l, Z.lor_0_l.
    rewrite !land_small_0xf, land_small_0x7 by lia.
    rewrite !shl32_small by lia.
    rewrite (lor_low _ _ 12) by lia.
    replace (quant (chan8 (alpha c)) 7 * 2 ^ 12 + quant (chan8 (red c)) 15 * 2 ^ 8)
      with ((quant (chan8 (alpha c)) 7 * 2 ^ 4 + quant (chan8 (red c)) 15) * 2 ^ 8) by lia.
    rewrite (lor_low _ _ 8) by lia.
    replace ((quant (chan8 (alpha c)) 7 * 2 ^ 4 + quant (chan8 (red c)) 15) * 2 ^ 8
             + quant (chan8 (green c)) 15 * 2 ^ 4)
      with ((quant (chan8 (alpha c)) 7 * 2 ^ 8 + quant (chan8 (red c)) 15 * 2 ^ 4
             + quant (chan8 (green c)) 15) * 2 ^ 4) by lia.
    rewrite (lor_low _ _ 4) by lia. lia.
  - rewrite Z.lor_0_l.
    rewrite !land_small_0x1f by lia.
    rewrite !shl32_small by lia.
    rewrite (lor_low _ _ 10) by lia.
    replace (quant (chan8 (red c)) 31 * 2 ^ 10 + quant (chan8 (green c)) 31 * 2 ^ 5)
      with ((quant (chan8 (red c)) 31 * 2 ^ 5 + quant (chan8 (green c)) 31) * 2 ^ 5) by lia.
    rewrite (lor_low _ _ 5) by lia.
    rewrite (lor_shiftl_low 1 _ 15) by lia. lia.
Qed.

(** The two bytes of a 16-bit value, high byte first. *)
Lemma be_bytes v :
  0 <= v < 2 ^ 16 ->
  u8 (Z.shiftr v 8) = v / 256 /\ u8 (Z.land v 0xff) = v mod 256.
Proof.
  intros Hv. unfold u8. rewrite Z.shiftr_div_pow2, land_ff by lia.
  change (2 ^ 8) with 256. split.
  - apply Z.mod_small. Z.div_mod_to_equations. lia.
  - apply Z.mod_mod. lia.
Qed.

(** ** Lemmas: the texel array *)

Lemma length_range_1 lo hi : length (range lo hi 1) = Z.to_nat (hi - lo).
Proof. rewrite length_range, Z.div_1_r. f_equal. lia. Qed.

Lemma emits_assign (f : Z) :
  emits 0 (fun '(raw, idx) =>
             let* raw := assign raw idx f in Ok (raw, int (idx + 1))) [f].
Proof.
  eapply emits_ext; [|apply (emits_inp (Ok f) f eq_refl)].
  intros [raw idx]. reflexivity.
Qed.

Lemma length_texels img :
  length (texels img)
  = (Z.to_nat (Y (Max (Bounds img)) - Y (Min (Bounds img)))
     * Z.to_nat (X (Max (Bounds img)) - X (Min (Bounds img))))%nat.
Proof.
  unfold texels. cbv zeta.
  rewrite (length_flat_map_uniform _ _
             (Z.to_nat (X (Max (Bounds img)) - X (Min (Bounds img))))).
  - now rewrite length_range_1.
  - intros y _. rewrite (length_flat_map_uniform _ _ 1%nat) by reflexivity.
    rewrite length_range_1. lia.
Qed.

Lemma imageToRGBA_ok img :
  - 2 ^ 30 <= X (Min (Bounds img)) <= X (Max (Bounds img)) ->
  X (Max (Bounds img)) < 2 ^ 30 ->
  - 2 ^ 30 <= Y (Min (Bounds img)) <= Y (Max (Bounds img)) ->
  Y (Max (Bounds img)) < 2 ^ 30 ->
  imageToRGBA img = Ok (texels img).
Proof.
  intros Hx Hx' Hy Hy'. unfold imageToRGBA. cbv zeta.
  set (w := X (Max (Bounds img)) - X (Min (Bounds img))).
  set (h := Y (Max (Bounds img)) - Y (Min (Bounds img))).
  assert (0 <= w < 2 ^ 31) by (unfold w; lia).
  assert (0 <= h < 2 ^ 31) by (unfold h; lia).
  assert (0 <= w * h < 2 ^ 62) by nia.
  rewrite (int_small w), (int_small h), (int_small (w * h)) by lia.
  assert (length (texels img) = Z.to_nat (w * h)) as Hlen.
  { rewrite length_texels. fold w h. nia. }
  rewrite (emits_fresh 0 _ (texels img)).
  - rewrite Hlen, Nat.sub_diag. cbn [replicate]. now rewrite app_nil_r.
  - unfold texels. cbv zeta.
    apply emits_for; [lia..|]. intros y _.
    apply emits_for; [lia..|]. intros x _.
    apply emits_assign.
  - unfold len. rewrite Hlen. lia.
  - lia.
Qed.

Lemma lookup_texels img x y :
  0 <= x < X (Max (Bounds img)) - X (Min (Bounds img)) ->
  0 <= y < Y (Max (Bounds img)) - Y (Min (Bounds img)) ->
  texels img !! Z.to_nat (x + y * (X (Max (Bounds img)) - X (Min (Bounds img))))
  = Some (pack_texel (At img (X (Min (Bounds img)) + x) (Y (Min (Bounds img)) + y))).
Proof.
  intros Hx Hy. unfold texels. cbv zeta.
  set (w := X (Max (Bounds img)) - X (Min (Bounds img))) in *.
  replace (Z.to_nat (x + y * w))
    with (Z.to_nat y * Z.to_nat w + (Z.to_nat x * 1 + 0))%nat by nia.
  rewrite (lookup_flat_map_uniform _ _ (Z.to_nat w) (Z.to_nat y) _
             (Y (Min (Bounds img)) + y)).
  - rewrite (lookup_flat_map_uniform _ _ 1%nat (Z.to_nat x) 0%nat
               (X (Min (Bounds img)) + x)); [reflexivity|reflexivity| |lia].
    rewrite lookup_range by (rewrite length_range_1; lia). f_equal. lia.
  - intros y' _. rewrite (length_flat_map_uniform _ _ 1%nat) by reflexivity.
    rewrite length_range_1. unfold w. lia.
  - rewrite lookup_range by (rewrite length_range_1; lia). f_equal. lia.
  - lia.
Qed.

(** The texel array of an image whose bounds start at the origin. *)
Lemma lookup_texels_origin img x y :
  at_origin img ->
  0 <= x < width_of img -> 0 <= y < height_of img ->
  texels img !! Z.to_nat (x + y * width_of img) = Some (pack_texel (At img x y)).
Proof.
  intros (Hx0 & Hy0 & Hw & Hh) Hx Hy. unfold width_of, height_of in *.
  pose proof (lookup_texels img x y) as Hl.
  rewrite Hx0, Hy0, !Z.sub_0_r, !Z.add_0_l in Hl.
  apply Hl; lia.
Qed.

Lemma index_texels img x y :
  at_origin img ->
  0 <= x < width_of img -> 0 <= y < height_of img ->
  index (texels img) (int (x + int (y * width_of img)))
  = Ok (pack_texel (At img x y)).
Proof.
  intros Ho Hx Hy. pose proof Ho as (_ & _ & Hw & Hh).
  assert (0 <= y * width_of img < 2 ^ 60) by nia.
  rewrite (int_small (y * width_of img)), int_small by lia.
  unfold index.
  destruct (Z.ltb_spec (x + y * width_of img) 0); [lia|].
  now rewrite lookup_texels_origin.
Qed.

Lemma len_texels img :
  at_origin img -> len (texels img) = width_of img * height_of img.
Proof.
  intros (Hx0 & Hy0 & Hw & Hh). unfold len, width_of, height_of in *.
  rewrite length_texels, Hx0, Hy0, !Z.sub_0_r. nia.
Qed.

Lemma RGB565_value_range c : 0 <= RGB565_value c < 2 ^ 16.
Proof.
  unfold RGB565_value. chan_ranges c.
  assert (0 <= chan8 (red c) / 8 < 32) by (Z.div_mod_to_equations; lia).
  assert (0 <= chan8 (green c) / 4 < 64) by (Z.div_mod_to_equations; lia).
  assert (0 <= chan8 (blue c) / 8 < 32) by (Z.div_mod_to_equations; lia).
  lia.
Qed.

Lemma RGB5A3_value_range c : 0 <= RGB5A3_value c < 2 ^ 16.
Proof.
  unfold RGB5A3_value. chan_ranges c.
  pose proof (quant_range (chan8 (alpha c)) 7 ltac:(lia) ltac:(lia)).
  pose proof (quant_range (chan8 (red c)) 15 ltac:(lia) ltac:(lia)).
  pose proof (quant_range (chan8 (green c)) 15 ltac:(lia) ltac:(lia)).
  pose proof (quant_range (chan8 (blue c)) 15 ltac:(lia) ltac:(lia)).
  pose proof (quant_range (chan8 (red c)) 31 ltac:(lia) ltac:(lia)).
  pose proof (quant_range (chan8 (green c)) 31 ltac:(lia) ltac:(lia)).
  pose proof (quant_range (chan8 (blue c)) 31 ltac:(lia) ltac:(lia)).
  destruct (chan8 (alpha c) <=? 0xda); lia.
Qed.

(** ** Lemmas: what the loop body of each encoder writes *)

Lemma I4_intensity_range t : 0 <= I4_intensity t <= 255.
Proof.
  unfold I4_intensity. cbv zeta. rewrite (land_ff (_ / 3)).
  pose proof (Z.mod_pos_bound (add32 (add32 (Z.land (Z.shiftr t 0) 255)
    (Z.land (Z.shiftr t 8) 255)) (Z.land (Z.shiftr t 16) 255) / 3) 256 ltac:(lia)).
  lia.
Qed.

Lemma I4_newPixel_texels img x y :
  at_origin img -> 0 <= x -> 0 <= y ->
  I4_newPixel (texels img) (width_of img) (height_of img) x y
  = Ok (I4_cell img x y).
Proof.
  intros Ho Hx Hy. pose proof Ho as (_ & _ & Hw & Hh).
  unfold I4_newPixel, I4_cell.
  destruct (Z.geb_spec x (width_of img)); [reflexivity|].
  destruct (Z.geb_spec y (height_of img)); [reflexivity|].
  cbn [orb]. rewrite index_texels by (assumption || lia). cbn [bind].
  rewrite I4_intensity_pack.
  assert (0 <= y * width_of img < 2 ^ 60) by nia.
  rewrite (int_small (y * width_of img)) by lia.
  rewrite (int_small (x + y * width_of img)) by lia.
  rewrite (int_small (x + y * width_of img + 1)) by lia.
  set (n := x + y * width_of img + 1).
  assert (0 <= n) by (unfold n; nia).
  assert (forall t, (let* rgba := Ok t in
            Ok (u8 (Z.lor (shl32 (mul32 (intensity (At img x y)) 15 / 255) 4)
                          (Z.land (mul32 (I4_intensity rgba) 15 / 255) 0xf))))
          = Ok (quant (intensity (At img x y)) 15 * 16 + quant (I4_intensity t) 15)) as Hbyte.
  { intros t. cbn [bind]. f_equal. apply I4_byte_value.
    - apply intensity_range.
    - apply I4_intensity_range. }
  destruct (Z.geb_spec n (len (texels img))) as [Hge|Hlt].
  - rewrite Hbyte. rewrite lookup_ge_None_2 by (unfold len in Hge; lia).
    reflexivity.
  - unfold index. destruct (Z.ltb_spec n 0); [lia|].
    destruct (lookup_lt_is_Some_2 (texels img) (Z.to_nat n)) as [t Ht].
    { unfold len in Hlt. lia. }
    rewrite Ht. cbn [default option_map id]. apply Hbyte.
Qed.

Lemma IA4_newPixel_texels img x y :
  at_origin img -> 0 <= x -> 0 <= y ->
  IA4_newPixel (texels img) (width_of img) (height_of img) x y
  = Ok (IA4_cell img x y).
Proof.
  intros Ho Hx Hy. unfold IA4_newPixel, IA4_cell.
  destruct (Z.geb_spec y (height_of img)); [reflexivity|].
  destruct (Z.geb_spec x (width_of img)); [reflexivity|].
  cbn [orb]. rewrite index_texels by (assumption || lia). cbn [bind].
  now rewrite IA4_texel_pack.
Qed.

Lemma RGB565_step_emits img x y :
  at_origin img -> 0 <= x -> 0 <= y ->
  emits (-1) (RGB565_step (texels img) (width_of img) (height_of img) x y)
        (RGB565_cell img x y).
Proof.
  intros Ho Hx Hy.
  assert (exists v, 0 <= v < 2 ^ 16 /\
            RGB565_newPixel (texels img) (width_of img) (height_of img) x y = Ok v /\
            RGB565_cell img x y = [v / 256; v mod 256]) as (v & Hv & Hnp & Hcell).
  { unfold RGB565_newPixel, RGB565_cell.
    destruct (Z.geb_spec y (height_of img)); [exists 0; repeat split; lia|].
    destruct (Z.geb_spec x (width_of img)); [exists 0; repeat split; lia|].
    cbn [orb]. rewrite index_texels by (assumption || lia). cbn [bind].
    exists (RGB565_value (At img x y)).
    rewrite RGB565_texel_pack. repeat split; apply RGB565_value_range. }
  rewrite Hcell. destruct (be_bytes v Hv) as [<- <-].
  eapply emits_ext; [|apply emits_z].
  intros [output z]. unfold RGB565_step. rewrite Hnp. reflexivity.
Qed.

Lemma RGB5A3_step_emits img x y :
  at_origin img -> 0 <= x -> 0 <= y ->
  emits (-1) (RGB5A3_step (texels img) (width_of img) (height_of img) x y)
        (RGB5A3_cell img x y).
Proof.
  intros Ho Hx Hy. unfold RGB5A3_cell.
  destruct ((y >=? height_of img) || (x >=? width_of img)) eqn:Hout.
  - eapply emits_ext; [|apply emits_nil].
    intros [output z]. unfold RGB5A3_step. now rewrite Hout.
  - apply orb_false_elim in Hout as [Hy' Hx'].
    destruct (be_bytes _ (RGB5A3_value_range (At img x y))) as [<- <-].
    eapply emits_ext; [|apply emits_z].
    intros [output z]. unfold RGB5A3_step. rewrite Hy', Hx'. cbn [orb].
    rewrite index_texels by (assumption || lia). cbn [bind]. cbv zeta.
    now rewrite RGB5A3_texel_pack.
Qed.

(** ** Lemmas: the output of each encoder *)

Lemma blocks_bound v b :
  0 <= v < 2 ^ 61 -> 0 < b < 2 ^ 61 ->
  v <= b * Z.of_nat (blocks v b) < v + b.
Proof.
  intros Hv Hb. rewrite <- addPadding_blocks_nat by assumption.
  apply addPadding_spec; assumption.
Qed.

Lemma I4_size W H :
  0 <= W < 2 ^ 30 -> 0 <= H < 2 ^ 30 ->
  Z.quot (int (addPadding W 8 * addPadding H 8)) 2
  = Z.of_nat (blocks H 8 * (blocks W 8 * (blocks 8 1 * (blocks 8 2 * 1))))
  /\ Z.quot (int (addPadding W 8 * addPadding H 8)) 2 < 2 ^ 63.
Proof.
  intros HW HH. rewrite !addPadding_blocks_nat by lia.
  pose proof (blocks_bound W 8 ltac:(lia) ltac:(lia)).
  pose proof (blocks_bound H 8 ltac:(lia) ltac:(lia)).
  change (blocks 8 1) with 8%nat. change (blocks 8 2) with 4%nat.
  rewrite int_small by nia.
  replace (8 * Z.of_nat (blocks W 8) * (8 * Z.of_nat (blocks H 8)))
    with (Z.of_nat (blocks H 8 * (blocks W 8 * (8 * (4 * 1)))) * 2) by lia.
  rewrite Z.quot_mul by lia. split; [reflexivity|nia].
Qed.

Lemma IA4_size W H :
  0 <= W < 2 ^ 30 -> 0 <= H < 2 ^ 30 ->
  int (addPadding W 8 * addPadding H 4)
  = Z.of_nat (blocks H 4 * (blocks W 8 * (blocks 4 1 * (blocks 8 1 * 1))))
  /\ int (addPadding W 8 * addPadding H 4) < 2 ^ 63.
Proof.
  intros HW HH. rewrite !addPadding_blocks_nat by lia.
  pose proof (blocks_bound W 8 ltac:(lia) ltac:(lia)).
  pose proof (blocks_bound H 4 ltac:(lia) ltac:(lia)).
  change (blocks 8 1) with 8%nat. change (blocks 4 1) with 4%nat.
  rewrite int_small by nia. split; nia.
Qed.

Lemma RGB_size W H :
  0 <= W < 2 ^ 30 -> 0 <= H < 2 ^ 30 ->
  int (int (addPadding W 4 * addPadding H 4) * 2)
  = Z.of_nat (blocks H 4 * (blocks W 4 * (blocks 4 1 * (blocks 4 1 * 2))))
  /\ int (int (addPadding W 4 * addPadding H 4) * 2) < 2 ^ 63.
Proof.
  intros HW HH. rewrite !addPadding_blocks_nat by lia.
  pose proof (blocks_bound W 4 ltac:(lia) ltac:(lia)).
  pose proof (blocks_bound H 4 ltac:(lia) ltac:(lia)).
  change (blocks 4 1) with 4%nat.
  rewrite (int_small (4 * _ * _)) by nia.
  rewrite int_small by nia. split; nia.
Qed.

Lemma at_origin_texels img : at_origin img -> imageToRGBA img = Ok (texels img).
Proof.
  intros (Hx0 & Hy0 & Hw & Hh). unfold width_of, height_of in *.
  apply imageToRGBA_ok; lia.
Qed.

Lemma ToI4_output_eq img :
  at_origin img ->
  ToI4_output img
  = Ok (tiled (width_of img) (height_of img) 8 8 2 (fun x y => [I4_cell img x y])).
Proof.
  intros Ho. pose proof Ho as (_ & _ & Hw & Hh).
  destruct (I4_size _ _ Hw Hh) as [Hsz Hmax].
  unfold ToI4_output. rewrite at_origin_texels by assumption.
  cbn [bind]. cbv zeta.
  rewrite (emits_fresh 0 _
             (tiled (width_of img) (height_of img) 8 8 2 (fun x y => [I4_cell img x y]))).
  - rewrite Hsz, Nat2Z.id, (length_tiled _ _ _ _ _ _ 1%nat) by reflexivity.
    rewrite Nat.sub_diag. cbn [replicate]. now rewrite app_nil_r.
  - apply (emits_tiled 0
             (fun x y '(output, inp) =>
                let* newPixel :=
                  I4_newPixel (texels img) (width_of img) (height_of img) x y in
                let* output := assign output inp newPixel in
                Ok (output, int (inp + 1)))); try lia.
    intros x y Hx Hy. apply emits_inp. now apply I4_newPixel_texels.
  - unfold len. rewrite Hsz, (length_tiled _ _ _ _ _ _ 1%nat) by reflexivity.
    lia.
  - exact Hmax.
Qed.

Lemma ToIA4_output_eq img :
  at_origin img ->
  ToIA4_output img
  = Ok (tiled (width_of img) (height_of img) 8 4 1 (fun x y => [IA4_cell img x y])).
Proof.
  intros Ho. pose proof Ho as (_ & _ & Hw & Hh).
  destruct (IA4_size _ _ Hw Hh) as [Hsz Hmax].
  unfold ToIA4_output. rewrite at_origin_texels by assumption.
  cbn [bind]. cbv zeta.
  rewrite (emits_fresh 0 _
             (tiled (width_of img) (height_of img) 8 4 1 (fun x y => [IA4_cell img x y]))).
  - rewrite Hsz, Nat2Z.id, (length_tiled _ _ _ _ _ _ 1%nat) by reflexivity.
    rewrite Nat.sub_diag. cbn [replicate]. now rewrite app_nil_r.
  - apply (emits_tiled 0
             (fun x y '(output, inp) =>
                let* newPixel :=
                  IA4_newPixel (texels img) (width_of img) (height_of img) x y in
                let* output := assign output inp newPixel in
                Ok (output, int (inp + 1)))); try lia.
    intros x y Hx Hy. apply emits_inp. now apply IA4_newPixel_texels.
  - unfold len. rewrite Hsz, (length_tiled _ _ _ _ _ _ 1%nat) by reflexivity.
    lia.
  - exact Hmax.
Qed.

Lemma length_RGB565_cell img x y : length (RGB565_cell img x y) = 2%nat.
Proof. unfold RGB565_cell. now destruct (_ || _). Qed.

Lemma length_RGB5A3_cell img x y : (length (RGB5A3_cell img x y) <= 2)%nat.
Proof. unfold RGB5A3_cell. destruct (_ || _); cbn [length]; lia. Qed.

Lemma ToRGB565_output_eq img :
  at_origin img ->
  ToRGB565_output img
  = Ok (tiled (width_of img) (height_of img) 4 4 1 (RGB565_cell img)).
Proof.
  intros Ho. pose proof Ho as (_ & _ & Hw & Hh).
  destruct (RGB_size _ _ Hw Hh) as [Hsz Hmax].
  unfold ToRGB565_output. rewrite at_origin_texels by assumption.
  cbn [bind]. cbv zeta.
  rewrite (emits_fresh (-1) _
             (tiled (width_of img) (height_of img) 4 4 1 (RGB565_cell img))).
  - rewrite Hsz, Nat2Z.id, (length_tiled _ _ _ _ _ _ 2%nat)
      by apply length_RGB565_cell.
    rewrite Nat.sub_diag. cbn [replicate]. now rewrite app_nil_r.
  - apply (emits_tiled (-1)
             (RGB565_step (texels img) (width_of img) (height_of img))); try lia.
    intros x y Hx Hy. now apply RGB565_step_emits.
  - unfold len. rewrite Hsz, (length_tiled _ _ _ _ _ _ 2%nat)
      by apply length_RGB565_cell.
    lia.
  - exact Hmax.
Qed.

Lemma ToRGB5A3_output_eq img :
  at_origin img ->
  ToRGB5A3_output img
  = Ok (tiled (width_of img) (height_of img) 4 4 1 (RGB5A3_cell img)
        ++ replicate
             (Z.to_nat (addPadding (width_of img) 4 * addPadding (height_of img) 4 * 2)
              - length (tiled (width_of img) (height_of img) 4 4 1 (RGB5A3_cell img)))
             0).
Proof.
  intros Ho. pose proof Ho as (_ & _ & Hw & Hh).
  destruct (RGB_size _ _ Hw Hh) as [Hsz Hmax].
  assert (int (int (addPadding (width_of img) 4 * addPadding (height_of img) 4) * 2)
          = addPadding (width_of img) 4 * addPadding (height_of img) 4 * 2) as Hint.
  { rewrite Hsz. rewrite !addPadding_blocks_nat by lia.
    change (blocks 4 1) with 4%nat. lia. }
  unfold ToRGB5A3_output. rewrite at_origin_texels by assumption.
  cbn [bind]. cbv zeta. rewrite <- Hint.
  apply (emits_fresh (-1)).
  - apply (emits_tiled (-1)
             (RGB5A3_step (texels img) (width_of img) (height_of img))); try lia.
    intros x y Hx Hy. now apply RGB5A3_step_emits.
  - unfold len. rewrite Hsz. apply inj_le.
    apply length_tiled_le. apply length_RGB5A3_cell.
  - exact Hmax.
Qed.

(** ** Lemmas: a texel's place in the tiled output *)

Lemma blocks_1 b : blocks b 1 = Z.to_nat b.
Proof. unfold blocks. rewrite Z.div_1_r. f_equal. lia. Qed.

Lemma padded_le v b : 0 <= v -> 0 < b -> v <= b * Z.of_nat (blocks v b).
Proof.
  intros Hv Hb. unfold blocks.
  rewrite Z2Nat.id by (apply Z.div_pos; lia).
  pose proof (Z.div_mod (v + b - 1) b ltac:(lia)).
  pose proof (Z.mod_pos_bound (v + b - 1) b Hb). lia.
Qed.

Lemma lookup_tiled_padded {A : Type} (f : Z -> Z -> list A) W H bw bh sx
    (L k : nat) x y :
  0 < bw -> 0 < bh -> 0 < sx ->
  (forall x y, length (f x y) = L) ->
  0 <= x < bw * Z.of_nat (blocks W bw) ->
  0 <= y < bh * Z.of_nat (blocks H bh) ->
  (x mod bw) mod sx = 0 -> (k < L)%nat ->
  tiled W H bw bh sx f !! (tile_index W bw bh sx x y * L + k)%nat = f x y !! k.
Proof.
  intros Hbw Hbh Hsx Hf Hx Hy Hal Hk. unfold tile_index.
  pose proof (Z.div_mod x bw ltac:(lia)) as Hxd.
  pose proof (Z.mod_pos_bound x bw Hbw) as Hxm.
  pose proof (Z.div_mod y bh ltac:(lia)) as Hyd.
  pose proof (Z.mod_pos_bound y bh Hbh) as Hym.
  pose proof (Z.div_mod (x mod bw) sx ltac:(lia)) as Hsd.
  assert (0 <= x / bw) by (apply Z.div_pos; lia).
  assert (0 <= y / bh) by (apply Z.div_pos; lia).
  assert (0 <= x mod bw / sx) by (apply Z.div_pos; lia).
  rewrite lookup_tiled; try assumption.
  - rewrite !Z2Nat.id by lia. rewrite Hal in Hsd.
    replace (0 + x / bw * bw + x mod bw / sx * sx) with x by lia.
    replace (0 + y / bh * bh + y mod bh * 1) with y by lia.
    reflexivity.
  - assert (y / bh < Z.of_nat (blocks H bh)) by (apply Z.div_lt_upper_bound; lia).
    lia.
  - assert (x / bw < Z.of_nat (blocks W bw)) by (apply Z.div_lt_upper_bound; lia).
    lia.
  - rewrite blocks_1. lia.
  - unfold blocks.
    assert (x mod bw / sx < (bw + sx - 1) / sx).
    { apply Z.div_lt_upper_bound; [lia|].
      pose proof (Z.div_mod (bw + sx - 1) sx ltac:(lia)).
      pose proof (Z.mod_pos_bound (bw + sx - 1) sx Hsx).
      rewrite Hal in Hsd. nia. }
    lia.
Qed.

Lemma lookup_tiled_xy {A : Type} (f : Z -> Z -> list A) W H bw bh sx
    (L k : nat) x y :
  0 < bw -> 0 < bh -> 0 < sx ->
  (forall x y, length (f x y) = L) ->
  0 <= x < W -> 0 <= y < H ->
  (x mod bw) mod sx = 0 -> (k < L)%nat ->
  tiled W H bw bh sx f !! (tile_index W bw bh sx x y * L + k)%nat = f x y !! k.
Proof.
  intros Hbw Hbh Hsx Hf Hx Hy Hal Hk.
  pose proof (padded_le W bw ltac:(lia) Hbw).
  pose proof (padded_le H bh ltac:(lia) Hbh).
  apply lookup_tiled_padded; try assumption; lia.
Qed.

(** ** Lemmas: the header *)

Lemma makeTPLHeader_eq raw format width height :
  makeTPLHeader raw format width height
  = Ok ([0x00; 0x20; 0xAF; 0x30] ++ [0; 0; 0; 1] ++ [0; 0; 0; 0x0C]
        ++ [0; 0; 0; 20] ++ [0; 0; 0; 0]
        ++ be16 (u16 height) ++ be16 (u16 width) ++ be32 (u32 (format_id format))
        ++ [0; 0; 0; 64] ++ [0; 0; 0; 0] ++ [0; 0; 0; 0] ++ [0; 0; 0; 1]
        ++ [0; 0; 0; 1] ++ [0; 0; 0; 0] ++ [0; 0; 0; 0]
        ++ raw).
Proof. reflexivity. Qed.

Lemma To_inv e img blob :
  To e img = Ok blob ->
  exists payload, To_output e img = Ok payload /\
    makeTPLHeader payload (format_of e) (width_of img) (height_of img) = Ok blob.
Proof.
  destruct e; cbn [To To_output format_of];
    unfold ToI4, ToIA4, ToRGB565, ToRGB5A3; intros Hto.
  - destruct (ToI4_output img) as [payload| | |]; try discriminate. eauto.
  - destruct (ToIA4_output img) as [payload| | |]; try discriminate. eauto.
  - destruct (ToRGB565_output img) as [payload| | |]; try discriminate. eauto.
  - destruct (ToRGB5A3_output img) as [payload| | |]; try discriminate. eauto.
Qed.

Lemma To_output_ok e img payload :
  To_output e img = Ok payload ->
  To e img = makeTPLHeader payload (format_of e) (width_of img) (height_of img).
Proof.
  destruct e; cbn [To To_output format_of];
    unfold ToI4, ToIA4, ToRGB565, ToRGB5A3; now intros ->.
Qed.

Lemma RGB565_value_lor c :
  RGB565_value c
  = Z.lor (Z.lor (Z.shiftr (chan8 (blue c)) 3)
                 (Z.shiftl (Z.shiftr (chan8 (green c)) 2) 5))
          (Z.shiftl (Z.shiftr (chan8 (red c)) 3) 11).
Proof.
  unfold RGB565_value. chan_ranges c.
  rewrite !Z.shiftr_div_pow2 by lia.
  change (2 ^ 3) with 8. change (2 ^ 2) with 4.
  assert (0 <= chan8 (red c) / 8 < 32) by (Z.div_mod_to_equations; lia).
  assert (0 <= chan8 (green c) / 4 < 64) by (Z.div_mod_to_equations; lia).
  assert (0 <= chan8 (blue c) / 8 < 32) by (Z.div_mod_to_equations; lia).
  rewrite (Z.lor_comm (chan8 (blue c) / 8)).
  rewrite (lor_shiftl_low _ (chan8 (blue c) / 8) 5) by lia.
  rewrite Z.lor_comm.
  rewrite (lor_shiftl_low _ _ 11) by lia. lia.
Qed.

Lemma at_origin_uniform w h c :
  0 <= w < 2 ^ 30 -> 0 <= h < 2 ^ 30 -> at_origin (uniform w h c).
Proof. intros Hw Hh. repeat split; cbn; lia. Qed.

(** ** RGB565 *)

(** C1, as stated, fails: on a 1x1 image whose pixel is pure red the
    encoder emits [0xF8, 0x00] (red in the high bits), not the bytes of
    the red-in-the-low-bits packing, [0x00, 0x1F]. *)
Lemma RGB565_red_low_fails :
  ~ (forall img x y,
       at_origin img -> 0 <= x < width_of img -> 0 <= y < height_of img ->
       exists out, ToRGB565_output img = Ok out /\
         out !! (tile_index (width_of img) 4 4 1 x y * 2)%nat
           = Some (RGB565_red_low (At img x y) / 256) /\
         out !! (tile_index (width_of img) 4 4 1 x y * 2 + 1)%nat
           = Some (RGB565_red_low (At img x y) mod 256)).
Proof.
  intros Hclaim.
  destruct (Hclaim (uniform 1 1 (rgba8 255 0 0 255)) 0 0)
    as (out & Hout & Hhi & _).
  - apply at_origin_uniform; lia.
  - cbn. lia.
  - cbn. lia.
  - vm_compute in Hout. injection Hout as <-.
    vm_compute in Hhi. discriminate Hhi.
Qed.

(** C1, amended: for every in-bounds texel the RGB565 encoder emits, at
    the texel's place in the 4x4-tiled output and high byte first, the
    16-bit value [blue>>3 | (green>>2)<<5 | (red>>3)<<11]: blue in the
    low bits, red in the high bits. *)
Theorem RGB565_texel_bytes img x y :
  at_origin img -> 0 <= x < width_of img -> 0 <= y < height_of img ->
  let c := At img x y in
  let v := Z.lor (Z.lor (Z.shiftr (chan8 (blue c)) 3)
                        (Z.shiftl (Z.shiftr (chan8 (green c)) 2) 5))
                 (Z.shiftl (Z.shiftr (chan8 (red c)) 3) 11) in
  exists out, ToRGB565_output img = Ok out /\
    out !! (tile_index (width_of img) 4 4 1 x y * 2)%nat = Some (v / 256) /\
    out !! (tile_index (width_of img) 4 4 1 x y * 2 + 1)%nat = Some (v mod 256) /\
    0 <= v < 2 ^ 16 /\
    v mod 32 = Z.shiftr (chan8 (blue c)) 3 /\
    v / 32 mod 64 = Z.shiftr (chan8 (green c)) 2 /\
    v / 2048 = Z.shiftr (chan8 (red c)) 3.
Proof.
  intros Ho Hx Hy c v.
  assert (v = RGB565_value c) as Hv by (symmetry; apply RGB565_value_lor).
  exists (tiled (width_of img) (height_of img) 4 4 1 (RGB565_cell img)).
  split; [now apply ToRGB565_output_eq|].
  assert (RGB565_cell img x y = [v / 256; v mod 256]) as Hcell.
  { unfold RGB565_cell.
    destruct (Z.geb_spec y (height_of img)); [lia|].
    destruct (Z.geb_spec x (width_of img)); [lia|].
    cbn [orb]. fold c. now rewrite <- Hv. }
  assert ((x mod 4) mod 1 = 0) as Hal by apply Z.mod_1_r.
  split; [|split].
  - rewrite <- (Nat.add_0_r (_ * 2)).
    rewrite (lookup_tiled_xy _ _ _ _ _ _ 2%nat 0%nat x y); try lia.
    + now rewrite Hcell.
    + apply length_RGB565_cell.
  - rewrite (lookup_tiled_xy _ _ _ _ _ _ 2%nat 1%nat x y); try lia.
    + now rewrite Hcell.
    + apply length_RGB565_cell.
  - rewrite Hv. split; [apply RGB565_value_range|].
    unfold RGB565_value. fold c. chan_ranges c.
    rewrite !Z.shiftr_div_pow2 by lia.
    change (2 ^ 3) with 8. change (2 ^ 2) with 4.
    repeat split; Z.div_mod_to_equations; lia.
Qed.

Lemma RGB565_texel_bytes_witness :
  exists out, ToRGB565_output (uniform 1 1 (rgba8 255 0 0 255)) = Ok out /\
    out !! 0%nat = Some 0xF8 /\ out !! 1%nat = Some 0x00.
Proof.
  destruct (RGB565_texel_bytes (uniform 1 1 (rgba8 255 0 0 255)) 0 0)
    as (out & Hout & Hhi & Hlo & _).
  - apply at_origin_uniform; lia.
  - cbn. lia.
  - cbn. lia.
  - exists out. split; [exact Hout|]. split; [exact Hhi|exact Hlo].
Defined.

(** ** RGB5A3 *)

Lemma elem_of_range_intro lo hi step i :
  0 < step -> lo <= i < hi -> (i - lo) mod step = 0 -> i ∈ range lo hi step.
Proof.
  intros Hs Hi Hal.
  pose proof (Z.div_mod (i - lo) step ltac:(lia)) as Hd. rewrite Hal in Hd.
  assert (0 <= (i - lo) / step) by (apply Z.div_pos; lia).
  apply (list_elem_of_lookup_2 _ (Z.to_nat ((i - lo) / step))).
  rewrite lookup_range.
  - f_equal. rewrite Z2Nat.id by assumption. lia.
  - rewrite length_range.
    assert ((i - lo) / step + 1 <= (hi - lo + step - 1) / step).
    { apply Z.div_le_lower_bound; lia. }
    lia.
Qed.

Lemma tiled_split {A : Type} (f : Z -> Z -> list A) W H bw bh x y :
  0 < bw -> 0 < bh -> 0 <= x < W -> 0 <= y < H ->
  exists before after, tiled W H bw bh 1 f = before ++ f x y ++ after.
Proof.
  intros Hbw Hbh Hx Hy. unfold tiled.
  pose proof (Z.div_mod x bw ltac:(lia)) as Hxd.
  pose proof (Z.mod_pos_bound x bw Hbw) as Hxm.
  pose proof (Z.div_mod y bh ltac:(lia)) as Hyd.
  pose proof (Z.mod_pos_bound y bh Hbh) as Hym.
  set (x1 := bw * (x / bw)) in *. set (y1 := bh * (y / bh)) in *.
  assert (0 <= x / bw) by (apply Z.div_pos; lia).
  assert (0 <= y / bh) by (apply Z.div_pos; lia).
  assert (y1 ∈ range 0 H bh) as Hy1.
  { apply elem_of_range_intro; [lia|nia|].
    unfold y1. rewrite Z.sub_0_r, Z.mul_comm. apply Z.mod_mul. lia. }
  assert (x1 ∈ range 0 W bw) as Hx1.
  { apply elem_of_range_intro; [lia|nia|].
    unfold x1. rewrite Z.sub_0_r, Z.mul_comm. apply Z.mod_mul. lia. }
  assert (y ∈ range y1 (y1 + bh) 1) as Hyr.
  { apply elem_of_range_intro; [lia|lia|apply Z.mod_1_r]. }
  assert (x ∈ range x1 (x1 + bw) 1) as Hxr.
  { apply elem_of_range_intro; [lia|lia|apply Z.mod_1_r]. }
  destruct (flat_map_split (fun x => f x y) _ x Hxr) as (a1 & a2 & Ha).
  destruct (flat_map_split
              (fun y => flat_map (fun x => f x y) (range x1 (x1 + bw) 1)) _ y Hyr)
    as (b1 & b2 & Hb).
  destruct (flat_map_split
              (fun x1 => flat_map (fun y => flat_map (fun x => f x y)
                                              (range x1 (x1 + bw) 1))
                           (range y1 (y1 + bh) 1)) _ x1 Hx1)
    as (c1 & c2 & Hc).
  destruct (flat_map_split
              (fun y1 => flat_map (fun x1 => flat_map (fun y =>
                 flat_map (fun x => f x y) (range x1 (x1 + bw) 1))
                 (range y1 (y1 + bh) 1)) (range 0 W bw)) _ y1 Hy1)
    as (d1 & d2 & Hd).
  exists (d1 ++ c1 ++ b1 ++ a1), (a2 ++ b2 ++ c2 ++ d2).
  rewrite Hd, Hc, Hb, Ha. now rewrite <- !app_assoc.
Qed.

(** C3: for every in-bounds texel the RGB5A3 encoder emits two bytes,
    high byte first, of a 16-bit value [v] chosen by comparing alpha with
    0xDA.  With alpha <= 0xDA: bit 15 is 0, bits 14-12 are a*7/255,
    bits 11-8, 7-4 and 3-0 are red, green and blue, each as c*15/255.
    With alpha > 0xDA: bit 15 is 1, bits 14-10, 9-5 and 4-0 are red,
    green and blue, each as c*31/255, and alpha is dropped.  A texel with
    r=g=b=0 and a=255 gives the bytes 0x80, 0x00. *)
Theorem RGB5A3_texel_bytes :
  (forall img x y,
     at_origin img -> 0 <= x < width_of img -> 0 <= y < height_of img ->
     let c := At img x y in
     let r := chan8 (red c) in let g := chan8 (green c) in
     let b := chan8 (blue c) in let a := chan8 (alpha c) in
     exists out before after v,
       ToRGB5A3_output img = Ok out /\
       out = before ++ [v / 256; v mod 256] ++ after /\
       0 <= v < 2 ^ 16 /\
       (a <= 0xDA ->
          v / 2 ^ 15 = 0 /\ v / 2 ^ 12 mod 8 = a * 7 / 255 /\
          v / 2 ^ 8 mod 16 = r * 15 / 255 /\ v / 2 ^ 4 mod 16 = g * 15 / 255 /\
          v mod 16 = b * 15 / 255) /\
       (a > 0xDA ->
          v / 2 ^ 15 = 1 /\ v / 2 ^ 10 mod 32 = r * 31 / 255 /\
          v / 2 ^ 5 mod 32 = g * 31 / 255 /\ v mod 32 = b * 31 / 255) /\
       (r = 0 -> g = 0 -> b = 0 -> a = 255 -> v / 256 = 0x80 /\ v mod 256 = 0x00))
  /\ ToRGB5A3_output (uniform 1 1 (rgba8 0 0 0 255))
     = Ok ([0x80; 0x00] ++ replicate 30 0).
Proof.
  split; [|vm_compute; reflexivity].
  intros img x y Ho Hx Hy c r g b a.
  destruct (tiled_split (RGB5A3_cell img) (width_of img) (height_of img) 4 4 x y)
    as (before & after & Hsplit); try lia.
  assert (RGB5A3_cell img x y
          = [RGB5A3_value c / 256; RGB5A3_value c mod 256]) as Hcell.
  { unfold RGB5A3_cell.
    destruct (Z.geb_spec y (height_of img)); [lia|].
    destruct (Z.geb_spec x (width_of img)); [lia|]. reflexivity. }
  eexists _, before, _, (RGB5A3_value c).
  split; [now apply ToRGB5A3_output_eq|].
  split; [rewrite Hsplit, Hcell, <- !app_assoc; reflexivity|].
  split; [apply RGB5A3_value_range|].
  unfold RGB5A3_value. fold a r g b.
  pose proof (chan8_range (alpha c)). pose proof (chan8_range (red c)).
  pose proof (chan8_range (green c)). pose proof (chan8_range (blue c)).
  fold a r g b in H, H0, H1, H2.
  pose proof (quant_range a 7 ltac:(lia) ltac:(lia)).
  pose proof (quant_range r 15 ltac:(lia) ltac:(lia)).
  pose proof (quant_range g 15 ltac:(lia) ltac:(lia)).
  pose proof (quant_range b 15 ltac:(lia) ltac:(lia)).
  pose proof (quant_range r 31 ltac:(lia) ltac:(lia)).
  pose proof (quant_range g 31 ltac:(lia) ltac:(lia)).
  pose proof (quant_range b 31 ltac:(lia) ltac:(lia)).
  fold (quant a 7) (quant r 15) (quant g 15) (quant b 15)
       (quant r 31) (quant g 31) (quant b 31).
  destruct (Z.leb_spec a 0xda) as [Hle|Hgt].
  - split; [|split].
    + intros _. repeat split; Z.div_mod_to_equations; lia.
    + intros Hgt. lia.
    + intros _ _ _ Ha. lia.
  - split; [|split].
    + intros Hle. lia.
    + intros _. repeat split; Z.div_mod_to_equations; lia.
    + intros -> -> -> _. change (quant 0 31) with 0. split; reflexivity.
Qed.

Lemma RGB5A3_texel_bytes_witness :
  exists out before after v,
    ToRGB5A3_output (uniform 1 1 (rgba8 255 255 255 0)) = Ok out /\
    out = before ++ [v / 256; v mod 256] ++ after /\
    v / 2 ^ 15 = 0 /\ v / 2 ^ 12 mod 8 = 0 /\ v mod 16 = 15.
Proof.
  destruct (proj1 RGB5A3_texel_bytes (uniform 1 1 (rgba8 255 255 255 0)) 0 0)
    as (out & before & after & v & Hout & Hsplit & _ & Hlow & _).
  - apply at_origin_uniform; lia.
  - cbn. lia.
  - cbn. lia.
  - destruct Hlow as (Hmode & Halpha & _ & _ & Hblue);
      [apply Z.leb_le; reflexivity|].
    exists out, before, after, v.
    split; [exact Hout|]. split; [exact Hsplit|].
    split; [exact Hmode|]. split; [exact Halpha|exact Hblue].
Defined.

(** ** I4 *)

Lemma nibbles hi lo :
  0 <= hi <= 15 -> 0 <= lo <= 15 ->
  (hi * 16 + lo) / 16 = hi /\ (hi * 16 + lo) mod 16 = lo.
Proof. intros Hhi Hlo. split; Z.div_mod_to_equations; lia. Qed.

(** C5: for an in-bounds texel at an even x, the I4 encoder stores one
    byte at the pair's place in the 8x8-tiled output; its high nibble is
    the first texel's intensity (r+g+b)/3 quantized as i*15/255, its low
    nibble is the same for the texel at x+1, and 0 when the second
    texel's linear index is outside the texel array.  For a 1x1 opaque
    white image the first byte has high nibble 15 and low nibble 0. *)
Theorem I4_pair_byte :
  (forall img x y,
     at_origin img -> 0 <= x < width_of img -> 0 <= y < height_of img ->
     x mod 2 = 0 ->
     exists out byte,
       ToI4_output img = Ok out /\
       out !! tile_index (width_of img) 8 8 2 x y = Some byte /\
       byte / 16 = intensity (At img x y) * 15 / 255 /\
       (x + 1 < width_of img ->
        byte mod 16 = intensity (At img (x + 1) y) * 15 / 255) /\
       (width_of img * height_of img <= x + y * width_of img + 1 ->
        byte mod 16 = 0))
  /\ (exists out byte,
        ToI4_output (uniform 1 1 (rgba8 255 255 255 255)) = Ok out /\
        out !! 0%nat = Some byte /\ byte / 16 = 15 /\ byte mod 16 = 0).
Proof.
  split.
  - intros img x y Ho Hx Hy Heven.
    exists (tiled (width_of img) (height_of img) 8 8 2 (fun x y => [I4_cell img x y])).
    exists (I4_cell img x y).
    split; [now apply ToI4_output_eq|]. split.
    + rewrite <- (Nat.add_0_r (tile_index _ _ _ _ _ _)).
      rewrite <- (Nat.mul_1_r (tile_index _ _ _ _ _ _)).
      rewrite (lookup_tiled_xy _ _ _ _ _ _ 1%nat 0%nat x y); try lia; try reflexivity.
      revert Heven. clear. intros Heven. Z.div_mod_to_equations. lia.
    + unfold I4_cell.
      destruct (Z.geb_spec x (width_of img)); [lia|].
      destruct (Z.geb_spec y (height_of img)); [lia|].
      cbn [orb]. cbv zeta.
      set (next := default 0 (texels img !! Z.to_nat (x + y * width_of img + 1))).
      pose proof (quant_range _ 15 (intensity_range (At img x y)) ltac:(lia)) as H1.
      pose proof (quant_range _ 15 (I4_intensity_range next) ltac:(lia)) as H2.
      destruct (nibbles _ _ H1 H2) as [Hhi Hlo]. rewrite Hhi, Hlo.
      split; [reflexivity|]. split.
      * intros Hx1. unfold next.
        replace (x + y * width_of img + 1) with ((x + 1) + y * width_of img) by lia.
        rewrite lookup_texels_origin by (assumption || lia).
        cbn [default option_map id]. now rewrite I4_intensity_pack.
      * intros Hend. unfold next.
        rewrite lookup_ge_None_2; [reflexivity|].
        pose proof (len_texels img Ho) as Hlen. unfold len in Hlen. nia.
  - exists ([0xF0] ++ replicate 31 0), 0xF0.
    split; [vm_compute; reflexivity|]. repeat split; reflexivity.
Qed.

Lemma I4_pair_byte_witness :
  exists out byte,
    ToI4_output (uniform 2 1 (rgba8 255 255 255 255)) = Ok out /\
    out !! 0%nat = Some byte /\ byte / 16 = 15 /\ byte mod 16 = 15.
Proof.
  destruct (proj1 I4_pair_byte (uniform 2 1 (rgba8 255 255 255 255)) 0 0)
    as (out & byte & Hout & Hbyte & Hhi & Hlo & _).
  - apply at_origin_uniform; lia.
  - cbn. lia.
  - cbn. lia.
  - reflexivity.
  - exists out, byte. split; [exact Hout|]. split; [exact Hbyte|].
    split; [exact Hhi|]. apply Hlo. cbn. lia.
Defined.

(** ** IA4 *)

(** C6: the IA4 encoder emits one byte per texel of the padded grid,
    walking 8-wide by 4-high blocks; the byte of an in-bounds texel has
    the intensity (r+g+b)/3 quantized as i*15/255 in its low nibble and
    the alpha channel quantized as a*15/255 in its high nibble. *)
Theorem IA4_texel_byte img :
  at_origin img ->
  exists out,
    ToIA4_output img = Ok out /\
    len out = addPadding (width_of img) 8 * addPadding (height_of img) 4 /\
    forall x y, 0 <= x < width_of img -> 0 <= y < height_of img ->
      exists byte,
        out !! tile_index (width_of img) 8 4 1 x y = Some byte /\
        byte mod 16 = intensity (At img x y) * 15 / 255 /\
        byte / 16 = chan8 (alpha (At img x y)) * 15 / 255.
Proof.
  intros Ho. pose proof Ho as (_ & _ & Hw & Hh).
  exists (tiled (width_of img) (height_of img) 8 4 1 (fun x y => [IA4_cell img x y])).
  split; [now apply ToIA4_output_eq|]. split.
  - unfold len. rewrite (length_tiled _ _ _ _ _ _ 1%nat) by reflexivity.
    rewrite !addPadding_blocks_nat by lia.
    change (blocks 4 1) with 4%nat. change (blocks 8 1) with 8%nat. lia.
  - intros x y Hx Hy. exists (IA4_cell img x y). split.
    + rewrite <- (Nat.add_0_r (tile_index _ _ _ _ _ _)).
      rewrite <- (Nat.mul_1_r (tile_index _ _ _ _ _ _)).
      rewrite (lookup_tiled_xy _ _ _ _ _ _ 1%nat 0%nat x y); try lia; try reflexivity.
      apply Z.mod_1_r.
    + unfold IA4_cell.
      destruct (Z.geb_spec y (height_of img)); [lia|].
      destruct (Z.geb_spec x (width_of img)); [lia|].
      cbn [orb].
      pose proof (quant_range _ 15 (intensity_range (At img x y)) ltac:(lia)) as H1.
      pose proof (chan8_range (alpha (At img x y))) as Ha.
      pose proof (quant_range (chan8 (alpha (At img x y))) 15 ltac:(lia) ltac:(lia)) as H2.
      destruct (nibbles _ _ H2 H1) as [Hhi Hlo]. rewrite Hhi, Hlo.
      split; reflexivity.
Qed.

Lemma IA4_texel_byte_witness :
  exists out byte,
    ToIA4_output (uniform 1 1 (rgba8 255 255 255 128)) = Ok out /\
    len out = 32 /\ out !! 0%nat = Some byte /\
    byte mod 16 = 15 /\ byte / 16 = 7.
Proof.
  destruct (IA4_texel_byte (uniform 1 1 (rgba8 255 255 255 128)))
    as (out & Hout & Hlen & Hbyte).
  - apply at_origin_uniform; lia.
  - destruct (Hbyte 0 0) as (byte & Hb & Hlo & Hhi); [cbn; lia..|].
    exists out, byte. split; [exact Hout|]. split; [exact Hlen|].
    split; [exact Hb|]. split; [exact Hlo|exact Hhi].
Defined.

(** ** Payload length *)

Lemma To_output_length e img :
  at_origin img ->
  exists payload,
    To_output e img = Ok payload /\
    len payload
    = addPadding (width_of img) (block_w e) * addPadding (height_of img) (block_h e)
      * bits_per_texel e / 8.
Proof.
  intros Ho. pose proof Ho as (_ & _ & Hw & Hh).
  destruct e; cbn [To_output block_w block_h bits_per_texel].
  - eexists. split; [now apply ToI4_output_eq|].
    unfold len. rewrite (length_tiled _ _ _ _ _ _ 1%nat) by reflexivity.
    rewrite !addPadding_blocks_nat by lia.
    change (blocks 8 1) with 8%nat. change (blocks 8 2) with 4%nat.
    replace (8 * Z.of_nat (blocks (width_of img) 8)
             * (8 * Z.of_nat (blocks (height_of img) 8)) * 4)
      with (Z.of_nat (blocks (height_of img) 8 * (blocks (width_of img) 8 * (8 * (4 * 1))))
            * 8) by lia.
    now rewrite Z.div_mul by lia.
  - eexists. split; [now apply ToIA4_output_eq|].
    unfold len. rewrite (length_tiled _ _ _ _ _ _ 1%nat) by reflexivity.
    rewrite !addPadding_blocks_nat by lia.
    change (blocks 4 1) with 4%nat. change (blocks 8 1) with 8%nat.
    rewrite Z.div_mul by lia. lia.
  - eexists. split; [now apply ToRGB565_output_eq|].
    unfold len. rewrite (length_tiled _ _ _ _ _ _ 2%nat) by apply length_RGB565_cell.
    rewrite !addPadding_blocks_nat by lia.
    change (blocks 4 1) with 4%nat.
    replace (4 * Z.of_nat (blocks (width_of img) 4)
             * (4 * Z.of_nat (blocks (height_of img) 4)) * 16)
      with (Z.of_nat (blocks (height_of img) 4 * (blocks (width_of img) 4 * (4 * (4 * 2))))
            * 8) by lia.
    now rewrite Z.div_mul by lia.
  - eexists. split; [now apply ToRGB5A3_output_eq|].
    unfold len. rewrite length_app, length_replicate.
    pose proof (length_tiled_le (RGB5A3_cell img) (width_of img) (height_of img)
                  4 4 1 2%nat (length_RGB5A3_cell img)) as Hle.
    change (blocks 4 1) with 4%nat in Hle.
    rewrite !addPadding_blocks_nat in * by lia.
    replace (4 * Z.of_nat (blocks (width_of img) 4)
             * (4 * Z.of_nat (blocks (height_of img) 4)) * 16)
      with (4 * Z.of_nat (blocks (width_of img) 4)
            * (4 * Z.of_nat (blocks (height_of img) 4)) * 2 * 8) by lia.
    rewrite Z.div_mul by lia. lia.
Qed.

(** C4: for W, H > 0 and each of the four formats (I4: 8x8 blocks, 4
    bits per texel; IA4: 8x4, 8 bits; RGB565 and RGB5A3: 4x4, 16 bits)
    the payload has exactly pad(W,blockW) * pad(H,blockH) * bits / 8
    bytes, where pad rounds up to the next multiple of the block size and
    leaves multiples unchanged. *)
Theorem payload_length e img :
  at_origin img -> 0 < width_of img -> 0 < height_of img ->
  let W := width_of img in
  let H := height_of img in
  (exists payload,
     To_output e img = Ok payload /\
     len payload
     = addPadding W (block_w e) * addPadding H (block_h e) * bits_per_texel e / 8)
  /\ addPadding W (block_w e) mod block_w e = 0
  /\ W <= addPadding W (block_w e) < W + block_w e
  /\ (W mod block_w e = 0 -> addPadding W (block_w e) = W)
  /\ addPadding H (block_h e) mod block_h e = 0
  /\ H <= addPadding H (block_h e) < H + block_h e
  /\ (H mod block_h e = 0 -> addPadding H (block_h e) = H).
Proof.
  intros Ho Hw Hh W H.
  assert (0 < block_w e) by (destruct e; cbn; lia).
  assert (0 < block_h e) by (destruct e; cbn; lia).
  pose proof Ho as (_ & _ & HW & HH). fold W in HW. fold H in HH.
  assert (block_w e < 2 ^ 61) by (destruct e; cbn; lia).
  assert (block_h e < 2 ^ 61) by (destruct e; cbn; lia).
  destruct (addPadding_spec W (block_w e)) as (Hw1 & Hw2 & Hw3); [lia..|].
  destruct (addPadding_spec H (block_h e)) as (Hh1 & Hh2 & Hh3); [lia..|].
  split; [now apply To_output_length|]. tauto.
Qed.

Lemma payload_length_witness :
  exists payload,
    To_output EncRGB5A3 (uniform 5 3 (rgba8 1 2 3 4)) = Ok payload /\
    len payload = 64.
Proof.
  destruct (payload_length EncRGB5A3 (uniform 5 3 (rgba8 1 2 3 4)))
    as ((payload & Hout & Hlen) & _).
  - apply at_origin_uniform; lia.
  - cbn. lia.
  - cbn. lia.
  - exists payload. split; [exact Hout|exact Hlen].
Defined.

(** ** The header *)

Lemma be16_u16 v : be16 (u16 v) = [v mod 65536 / 256; v mod 256].
Proof.
  unfold be16, u16, u8. rewrite Z.shiftr_div_pow2 by lia.
  change (2 ^ 16) with 65536. change (2 ^ 8) with 256.
  f_equal; [|f_equal]; Z.div_mod_to_equations; lia.
Qed.

(** C7: the blob of a successful conversion starts with the big-endian
    header: bytes 0-3 are 0x00,0x20,0xAF,0x30; the image count is
    0,0,0,1; the image table offset is 0x0C; height and width are 16-bit
    values; the data offset is 64; the LOD fields are zero; the payload
    follows the header with nothing in between. *)
Theorem header_layout e img blob :
  To e img = Ok blob ->
  take 4 blob = [0x00; 0x20; 0xAF; 0x30] /\
  take 4 (drop 4 blob) = [0x00; 0x00; 0x00; 0x01] /\
  take 4 (drop 8 blob) = [0; 0; 0; 0x0C] /\
  take 2 (drop 20 blob) = [height_of img mod 65536 / 256; height_of img mod 256] /\
  take 2 (drop 22 blob) = [width_of img mod 65536 / 256; width_of img mod 256] /\
  take 4 (drop 28 blob) = [0; 0; 0; 64] /\
  take 4 (drop 48 blob) = [0; 0; 0; 0] /\
  take 4 (drop 52 blob) = [0; 0; 0; 0] /\
  exists header payload,
    To_output e img = Ok payload /\ blob = header ++ payload /\
    length header = 56%nat.
Proof.
  intros Hto. apply To_inv in Hto as (payload & Hout & Hhdr).
  rewrite makeTPLHeader_eq in Hhdr. injection Hhdr as <-.
  rewrite <- !be16_u16.
  repeat (split; [cbn [firstn skipn]; reflexivity|]).
  match goal with
  | |- exists header payload', _ /\ ?b = _ /\ _ => exists (firstn 56 b), payload
  end.
  split; [exact Hout|]. split.
  - cbn [firstn app]. reflexivity.
  - cbn [firstn length]. reflexivity.
Qed.

Lemma header_layout_witness :
  exists blob,
    To EncI4 (uniform 1 1 (rgba8 255 255 255 255)) = Ok blob /\
    take 4 blob = [0x00; 0x20; 0xAF; 0x30] /\
    take 4 (drop 4 blob) = [0x00; 0x00; 0x00; 0x01].
Proof.
  assert (exists blob, To EncI4 (uniform 1 1 (rgba8 255 255 255 255)) = Ok blob)
    as [blob Hblob] by (eexists; vm_compute; reflexivity).
  exists blob. split; [exact Hblob|].
  destruct (header_layout EncI4 _ blob Hblob) as (Hmagic & Hcount & _).
  split; [exact Hmagic|exact Hcount].
Defined.

(** C9: the serialized header is 56 bytes long (a 12-byte file header,
    the 4-byte image offset 20, the 4-byte palette offset 0 and a 36-byte
    image header), so the payload starts at byte 56 of the blob, although
    the DataOffset field holds 64. *)
Theorem header_size e img blob :
  To e img = Ok blob ->
  exists fh ih payload,
    To_output e img = Ok payload /\
    blob = write_FileHeader fh ++ be32 20 ++ be32 0 ++ write_ImageHeader ih ++ payload /\
    length (write_FileHeader fh) = 12%nat /\
    length (be32 20) = 4%nat /\ length (be32 0) = 4%nat /\
    length (write_ImageHeader ih) = 36%nat /\
    DataOffset ih = 64 /\
    take 4 (drop 28 blob) = [0; 0; 0; 64] /\
    len blob = 56 + len payload /\
    drop 56 blob = payload.
Proof.
  intros Hto. apply To_inv in Hto as (payload & Hout & Hhdr).
  unfold makeTPLHeader, binary_Write in Hhdr. cbv zeta in Hhdr.
  match type of Hhdr with
  | context [ {| Header := ?fh; ImageOff := _; PaletteOff := _; Image_ := ?ih |} ] =>
      exists fh, ih, payload
  end.
  injection Hhdr as <-.
  split; [exact Hout|].
  split; [reflexivity|].
  repeat (split; [reflexivity|]).
  split; [|reflexivity].
  unfold len. cbn [length]. lia.
Qed.

Lemma header_size_witness :
  exists blob payload,
    To EncRGB565 (uniform 1 1 (rgba8 255 0 0 255)) = Ok blob /\
    To_output EncRGB565 (uniform 1 1 (rgba8 255 0 0 255)) = Ok payload /\
    len blob = 56 + len payload /\ drop 56 blob = payload.
Proof.
  assert (exists blob, To EncRGB565 (uniform 1 1 (rgba8 255 0 0 255)) = Ok blob)
    as [blob Hblob] by (eexists; vm_compute; reflexivity).
  destruct (header_size EncRGB565 _ blob Hblob)
    as (fh & ih & payload & Hout & _ & _ & _ & _ & _ & _ & _ & Hlen & Hdrop).
  exists blob, payload. split; [exact Hblob|].
  split; [exact Hout|]. split; [exact Hlen|exact Hdrop].
Defined.

(** ** Failures *)

Lemma bind_no_err {A B : Type} (m : result A) (k : A -> result B) :
  no_err m -> (forall a, no_err (k a)) -> no_err (bind m k).
Proof.
  intros Hm Hk e. destruct m as [a|e'|p|]; cbn [bind].
  - apply Hk.
  - intros _. now apply (Hm e').
  - discriminate.
  - discriminate.
Qed.

Lemma loop_no_err {S : Type} (body : Z -> S -> result S) hi step :
  (forall i s, no_err (body i s)) ->
  forall fuel i s, no_err (loop fuel i hi step body s).
Proof.
  intros Hb. induction fuel as [|fuel IH]; intros i s; cbn [loop];
    (destruct (i <? hi); [|discriminate]).
  - discriminate.
  - apply bind_no_err; [apply Hb|]. intros s'. apply IH.
Qed.

Lemma for_no_err {S : Type} (body : Z -> S -> result S) lo hi step s :
  (forall i s, no_err (body i s)) -> no_err (for_ lo hi step body s).
Proof. intros Hb. now apply loop_no_err. Qed.

Lemma make_no_err n : no_err (make n).
Proof. unfold make. destruct (n <? 0); discriminate. Qed.

Lemma index_no_err l i : no_err (index l i).
Proof.
  unfold index. destruct (i <? 0); [discriminate|].
  destruct (l !! Z.to_nat i); discriminate.
Qed.

Lemma assign_no_err l i v : no_err (assign l i v).
Proof. unfold assign. destruct (_ || _); discriminate. Qed.

Lemma makeTPLHeader_no_err raw f w h : no_err (makeTPLHeader raw f w h).
Proof. rewrite makeTPLHeader_eq. discriminate. Qed.

Ltac no_err_step :=
  match goal with
  | |- no_err (bind _ _) => apply bind_no_err; [|intros ?]
  | |- no_err (for_ _ _ _ _ _) => apply for_no_err; intros ? ?
  | |- no_err (make _) => apply make_no_err
  | |- no_err (index _ _) => apply index_no_err
  | |- no_err (assign _ _ _) => apply assign_no_err
  | |- no_err (makeTPLHeader _ _ _ _) => apply makeTPLHeader_no_err
  | |- no_err (Ok _) => discriminate
  | |- no_err (Panic _) => discriminate
  | |- no_err (binary_Write _ _) => discriminate
  | |- no_err (let '(_, _) := ?s in _) => destruct s
  | |- no_err (if ?b then _ else _) => destruct b
  end.

Lemma imageToRGBA_no_err img : no_err (imageToRGBA img).
Proof. unfold imageToRGBA. cbv zeta. repeat no_err_step. Qed.

Lemma To_no_err e img : no_err (To e img).
Proof.
  pose proof (imageToRGBA_no_err img).
  destruct e; cbn [To];
    unfold ToI4, ToI4_output, ToIA4, ToIA4_output, ToRGB565, ToRGB565_output,
           ToRGB5A3, ToRGB5A3_output, I4_newPixel, IA4_newPixel,
           RGB565_step, RGB565_newPixel, RGB5A3_step;
    cbv zeta; repeat (assumption || no_err_step).
Qed.

(** C8, as stated, fails: the conversion of an image of width and height
    0 does not fail; it returns the header alone. *)
Lemma zero_size_conversion_succeeds :
  ~ (forall e img,
       width_of img <= 0 \/ height_of img <= 0 ->
       forall blob, To e img <> Ok blob).
Proof.
  intros Hclaim.
  assert (exists blob, To EncI4 (uniform 0 0 (rgba8 0 0 0 0)) = Ok blob)
    as [blob Hblob] by (eexists; vm_compute; reflexivity).
  apply (Hclaim EncI4 (uniform 0 0 (rgba8 0 0 0 0))) with (blob := blob).
  - left. cbn. lia.
  - exact Hblob.
Qed.

(** C8, amended: on an image whose bounds start at the origin with
    width and height >= 0 no conversion fails; when the width or the
    height is 0 the blob is the 56-byte header with an empty payload.
    No conversion returns an error value; a conversion that panics (as
    on the bounds (-16,0)-(-8,8), where [make] gets a negative length)
    yields no blob. *)
Theorem conversion_outcomes :
  (forall e img,
     at_origin img ->
     exists blob payload,
       To e img = Ok blob /\ To_output e img = Ok payload /\
       (width_of img = 0 \/ height_of img = 0 ->
        payload = [] /\ length blob = 56%nat))
  /\ (forall e img err, To e img <> Err err)
  /\ (forall e img, (exists p, To e img = Panic p) -> forall blob, To e img <> Ok blob)
  /\ To EncI4 (mkImage (-16) 0 (-8) 8 (fun _ _ => rgba8 0 0 0 0))
     = Panic LenOutOfRange.
Proof.
  split; [|split; [|split]].
  - intros e img Ho.
    destruct (To_output_length e img Ho) as (payload & Hout & Hlen).
    pose proof (To_output_ok e img payload Hout) as Hto.
    rewrite makeTPLHeader_eq in Hto.
    eexists _, payload. split; [exact Hto|]. split; [exact Hout|].
    intros Hzero.
    assert (payload = []) as ->.
    { assert (len payload = 0) as Hl0.
      { rewrite Hlen.
        destruct Hzero as [-> | ->]; destruct e;
          cbn [block_w block_h bits_per_texel];
          change (addPadding 0 8) with 0; change (addPadding 0 4) with 0;
          rewrite ?Z.mul_0_r, ?Z.mul_0_l; reflexivity. }
      destruct payload; [reflexivity|discriminate Hl0]. }
    split; reflexivity.
  - intros e img err. apply To_no_err.
  - intros e img [p Hp] blob. rewrite Hp. discriminate.
  - vm_compute. reflexivity.
Qed.

Lemma conversion_outcomes_witness :
  exists blob,
    To EncRGB5A3 (uniform 0 7 (rgba8 1 2 3 4)) = Ok blob /\ length blob = 56%nat.
Proof.
  destruct (proj1 conversion_outcomes EncRGB5A3 (uniform 0 7 (rgba8 1 2 3 4)))
    as (blob & payload & Hto & _ & Hzero).
  - apply at_origin_uniform; lia.
  - exists blob. split; [exact Hto|]. apply Hzero. left. reflexivity.
Defined.

(** ** The texel array and the indices the encoders read *)

Lemma pack_texel_lor c :
  pack_texel c
  = Z.lor (Z.lor (Z.lor (Z.shiftl (chan8 (alpha c)) 24)
                        (Z.shiftl (chan8 (red c)) 16))
                 (Z.shiftl (chan8 (green c)) 8))
          (chan8 (blue c)).
Proof.
  unfold pack_texel. fold (chan8 (alpha c)) (chan8 (red c)) (chan8 (green c)) (chan8 (blue c)).
  chan_ranges c.
  rewrite !shl32_small by lia.
  rewrite !Z.shiftl_mul_pow2 by lia.
  now rewrite Z.mul_1_r.
Qed.

(** C10: the texel array is sized by the extent of the bounds, and the
    encoders take width and height from the maximum corner.  For an image
    whose bounds start at (0,0) the array has width*height elements,
    element y*width+x is (alpha<<24)|(red<<16)|(green<<8)|blue of pixel
    (x,y) with each channel masked to 8 bits, and no encoder indexes
    outside the array.  With bounds (1,1)-(2,2) the array has one element
    and every encoder, walking 2x2 texels, indexes out of range. *)
Theorem texel_array :
  (forall img,
     - 2 ^ 30 <= X (Min (Bounds img)) <= X (Max (Bounds img)) ->
     X (Max (Bounds img)) < 2 ^ 30 ->
     - 2 ^ 30 <= Y (Min (Bounds img)) <= Y (Max (Bounds img)) ->
     Y (Max (Bounds img)) < 2 ^ 30 ->
     exists raw,
       imageToRGBA img = Ok raw /\
       len raw = (X (Max (Bounds img)) - X (Min (Bounds img)))
                 * (Y (Max (Bounds img)) - Y (Min (Bounds img))))
  /\ (forall img,
        at_origin img ->
        exists raw,
          imageToRGBA img = Ok raw /\
          len raw = width_of img * height_of img /\
          (forall x y,
             0 <= x < width_of img -> 0 <= y < height_of img ->
             let c := At img x y in
             raw !! Z.to_nat (y * width_of img + x)
             = Some (Z.lor (Z.lor (Z.lor (Z.shiftl (Z.land (alpha c) 0xff) 24)
                                         (Z.shiftl (Z.land (red c) 0xff) 16))
                                  (Z.shiftl (Z.land (green c) 0xff) 8))
                           (Z.land (blue c) 0xff))) /\
          (forall e, exists out, To_output e img = Ok out))
  /\ (let img := mkImage 1 1 2 2 (fun _ _ => rgba8 255 255 255 255) in
      imageToRGBA img = Ok [0xFFFFFFFF] /\
      width_of img = 2 /\ height_of img = 2 /\
      forall e, To_output e img = Panic IndexOutOfRange).
Proof.
  split; [|split].
  - intros img Hx Hx' Hy Hy'. exists (texels img).
    split; [now apply imageToRGBA_ok|].
    unfold len. rewrite length_texels. nia.
  - intros img Ho. exists (texels img).
    split; [now apply at_origin_texels|].
    split; [now apply len_texels|]. split.
    + intros x y Hx Hy c.
      replace (y * width_of img + x) with (x + y * width_of img) by lia.
      rewrite lookup_texels_origin by assumption.
      f_equal. apply pack_texel_lor.
    + intros e. destruct (To_output_length e img Ho) as (out & Hout & _). eauto.
  - cbv zeta. split; [vm_compute; reflexivity|].
    split; [reflexivity|]. split; [reflexivity|].
    intros []; vm_compute; reflexivity.
Qed.

Lemma texel_array_witness :
  exists raw,
    imageToRGBA (uniform 2 1 (rgba8 0x11 0x22 0x33 0x44)) = Ok raw /\
    len raw = 2 /\ raw !! 1%nat = Some 0x44112233.
Proof.
  destruct (proj1 (proj2 texel_array) (uniform 2 1 (rgba8 0x11 0x22 0x33 0x44)))
    as (raw & Hraw & Hlen & Hat & _).
  - apply at_origin_uniform; lia.
  - exists raw. split; [exact Hraw|]. split; [exact Hlen|].
    apply (Hat 1 0); cbn; lia.
Defined.

(** ** Padding texels *)

(** C2, at the failing inputs.  RGB5A3 on a 1x2 opaque white image: the
    texel (0,1) belongs at bytes 8-9 of the block, after the three padding
    texels of row 0; the encoder writes it at bytes 2-3, right after texel
    (0,0), and leaves bytes 8-9 zero.  RGB565 on the same image puts it at
    bytes 8-9.  I4 on a 1x2 image, black above white: the padding texel
    (1,0) takes the intensity of texel (0,1), so the first byte is 0x0F. *)
Theorem padding_texels_not_zero_filled :
  let white := rgba8 255 255 255 255 in
  let black := rgba8 0 0 0 255 in
  ToRGB5A3_output (uniform 1 2 white)
  = Ok ([0xFF; 0xFF; 0xFF; 0xFF] ++ replicate 28 0)
  /\ (tile_index 1 4 4 1 0 1 * 2)%nat = 8%nat
  /\ ToRGB565_output (uniform 1 2 white)
     = Ok ([0xFF; 0xFF; 0; 0; 0; 0; 0; 0; 0xFF; 0xFF] ++ replicate 22 0)
  /\ ToI4_output (mkImage 0 0 1 2 (fun x y => if y =? 0 then black else white))
     = Ok ([0x0F; 0; 0; 0; 0xF0] ++ replicate 27 0).
Proof. cbv zeta. repeat split; vm_compute; reflexivity. Qed.

(** * Further properties of [tpl.go] *)

(** ** [addPadding] *)

(** X1: padding a padded value changes nothing, and padding is monotone:
    a larger dimension never gets a smaller padded dimension. *)
Theorem addPadding_idempotent_monotone v v' b :
  0 <= v <= v' -> v' < 2 ^ 61 -> 0 < b < 2 ^ 61 ->
  addPadding (addPadding v b) b = addPadding v b /\
  addPadding v b <= addPadding v' b.
Proof.
  intros Hv Hv' Hb. split.
  - destruct (addPadding_spec v b) as (Hmod & Hrange & _); [lia..|].
    unfold addPadding at 1. rewrite Z.rem_mod_nonneg by lia.
    rewrite Hmod. reflexivity.
  - rewrite !addPadding_blocks by lia.
    apply Z.mul_le_mono_nonneg_l; [lia|].
    apply Z.div_le_mono; lia.
Qed.

Lemma addPadding_idempotent_monotone_witness :
  addPadding (addPadding 5 4) 4 = addPadding 5 4 /\
  addPadding 5 4 <= addPadding 9 4.
Proof. apply (addPadding_idempotent_monotone 5 9 4); lia. Defined.

(** X2: Go's [%] truncates, so for a negative value that is not a
    multiple of the padding [addPadding] does not stop at the next
    multiple above the value but at the one after it: the result is a
    multiple lying between value + padding and value + 2 * padding. *)
Theorem addPadding_negative v b :
  - 2 ^ 61 < v < 0 -> 0 < b < 2 ^ 61 -> Z.rem v b <> 0 ->
  addPadding v b = b * (Z.quot v b + 1) /\
  v + b < addPadding v b < v + 2 * b.
Proof.
  intros Hv Hb Hrem.
  pose proof (Z.quot_rem' v b) as Hqr.
  pose proof (Z.rem_bound_pos (- v) b ltac:(lia) ltac:(lia)) as Hr.
  rewrite Z.rem_opp_l' in Hr.
  unfold addPadding.
  destruct (Z.eqb_spec (Z.rem v b) 0) as [H0|_]; [contradiction|]. cbn [negb].
  rewrite (int_small (b - Z.rem v b)), int_small by lia.
  split; lia.
Qed.

Lemma addPadding_negative_witness :
  addPadding (-1) 8 = 8 /\ -1 + 8 < addPadding (-1) 8 < -1 + 2 * 8.
Proof. apply (addPadding_negative (-1) 8); [lia|lia|discriminate]. Defined.

(** ** [imageToRGBA] *)

Lemma flat_map_ext_in {A B : Type} (f g : A -> list B) (l : list A) :
  (forall a, a ∈ l -> f a = g a) -> flat_map f l = flat_map g l.
Proof.
  induction l as [|a l IH]; intros Hfg; cbn [flat_map]; [reflexivity|].
  rewrite (Hfg a) by left. f_equal. apply IH.
  intros b Hb. apply Hfg. now right.
Qed.

Lemma foldM_skip {S : Type} (body : Z -> S -> result S) (l : list Z) (s : S) :
  (forall i s', i ∈ l -> body i s' = Ok s') -> foldM body l s = Ok s.
Proof.
  revert s. induction l as [|i l IH]; intros s Hb; cbn [foldM]; [reflexivity|].
  rewrite Hb by left. cbn [bind]. apply IH.
  intros j s' Hj. apply Hb. now right.
Qed.

(** X3: for any well-formed bounds, not only those starting at the
    origin, the texel array is filled row by row from the minimum corner:
    pixel (x, y) is element (y - Min.Y) * (Max.X - Min.X) + (x - Min.X). *)
Theorem texels_any_bounds img :
  - 2 ^ 30 <= X (Min (Bounds img)) <= X (Max (Bounds img)) ->
  X (Max (Bounds img)) < 2 ^ 30 ->
  - 2 ^ 30 <= Y (Min (Bounds img)) <= Y (Max (Bounds img)) ->
  Y (Max (Bounds img)) < 2 ^ 30 ->
  exists raw,
    imageToRGBA img = Ok raw /\
    forall x y,
      X (Min (Bounds img)) <= x < X (Max (Bounds img)) ->
      Y (Min (Bounds img)) <= y < Y (Max (Bounds img)) ->
      raw !! Z.to_nat ((y - Y (Min (Bounds img)))
                       * (X (Max (Bounds img)) - X (Min (Bounds img)))
                       + (x - X (Min (Bounds img))))
      = Some (pack_texel (At img x y)).
Proof.
  intros Hx Hx' Hy Hy'. exists (texels img).
  split; [now apply imageToRGBA_ok|].
  intros x y Hxin Hyin.
  pose proof (lookup_texels img (x - X (Min (Bounds img)))
                (y - Y (Min (Bounds img))) ltac:(lia) ltac:(lia)) as Hl.
  replace (X (Min (Bounds img)) + (x - X (Min (Bounds img)))) with x in Hl by lia.
  replace (Y (Min (Bounds img)) + (y - Y (Min (Bounds img)))) with y in Hl by lia.
  rewrite <- Hl. do 2 f_equal. lia.
Qed.

Lemma texels_any_bounds_witness :
  exists raw,
    imageToRGBA (mkImage 3 5 5 6 (fun x y => rgba8 x y 0 255)) = Ok raw /\
    raw !! 1%nat = Some 0xFF040500.
Proof.
  destruct (texels_any_bounds (mkImage 3 5 5 6 (fun x y => rgba8 x y 0 255)))
    as (raw & Hraw & Hat); [cbn; lia..|].
  exists raw. split; [exact Hraw|].
  apply (Hat 4 5); cbn; lia.
Defined.

(** X4: on bounds with an empty or negative extent no pixel is read.
    When exactly one extent is negative the adapter panics on the
    negative length; otherwise (an extent is 0, or both are negative) it
    returns an array of zeros as long as the product of the extents. *)
Theorem imageToRGBA_degenerate img :
  let w := X (Max (Bounds img)) - X (Min (Bounds img)) in
  let h := Y (Max (Bounds img)) - Y (Min (Bounds img)) in
  - 2 ^ 30 <= X (Min (Bounds img)) < 2 ^ 30 ->
  - 2 ^ 30 <= X (Max (Bounds img)) < 2 ^ 30 ->
  - 2 ^ 30 <= Y (Min (Bounds img)) < 2 ^ 30 ->
  - 2 ^ 30 <= Y (Max (Bounds img)) < 2 ^ 30 ->
  w <= 0 \/ h <= 0 ->
  (w * h < 0 -> imageToRGBA img = Panic LenOutOfRange) /\
  (0 <= w * h -> imageToRGBA img = Ok (replicate (Z.to_nat (w * h)) 0)).
Proof.
  intros w h Hx0 Hx1 Hy0 Hy1 Hempty.
  assert (- 2 ^ 31 < w < 2 ^ 31) by (unfold w; lia).
  assert (- 2 ^ 31 < h < 2 ^ 31) by (unfold h; lia).
  assert (- 2 ^ 62 < w * h < 2 ^ 62) by nia.
  unfold imageToRGBA. cbv zeta. fold w h.
  rewrite (int_small w), (int_small h), (int_small (w * h)) by lia.
  unfold make. split; intros Hsign.
  - destruct (Z.ltb_spec (w * h) 0); [reflexivity|lia].
  - destruct (Z.ltb_spec (w * h) 0); [lia|]. cbn [bind].
    rewrite for_foldM by lia.
    rewrite foldM_skip; [reflexivity|].
    intros y s' Hyin.
    apply elem_of_range in Hyin as [Hyin _]; [|lia].
    rewrite for_foldM by lia.
    rewrite range_nil; [reflexivity|lia|]. unfold w, h in *. nia.
Qed.

Lemma imageToRGBA_degenerate_witness :
  imageToRGBA (mkImage 0 0 (-2) (-3) (fun _ _ => rgba8 255 255 255 255))
  = Ok (replicate 6 0).
Proof.
  apply (imageToRGBA_degenerate
           (mkImage 0 0 (-2) (-3) (fun _ _ => rgba8 255 255 255 255)));
    cbn; lia.
Defined.

Lemma pack_texel_chan8 c c' :
  chan8 (red c) = chan8 (red c') -> chan8 (green c) = chan8 (green c') ->
  chan8 (blue c) = chan8 (blue c') -> chan8 (alpha c) = chan8 (alpha c') ->
  pack_texel c = pack_texel c'.
Proof. intros Hr Hg Hb Ha. rewrite !pack_texel_sum. congruence. Qed.

Lemma To_texels e img img' :
  Bounds img = Bounds img' ->
  imageToRGBA img = imageToRGBA img' ->
  To e img = To e img'.
Proof.
  intros Hb Hraw.
  destruct e; cbn [To];
    unfold ToI4, ToI4_output, ToIA4, ToIA4_output, ToRGB565, ToRGB565_output,
           ToRGB5A3, ToRGB5A3_output, width_of, height_of;
    now rewrite Hb, Hraw.
Qed.

(** X5: a conversion depends on the image only through its bounds and
    the low 8 bits of the four channels of the pixels inside the bounds:
    higher channel bits and pixels outside the bounds change nothing. *)
Theorem conversion_reads_low_bytes_in_bounds e img img' :
  Bounds img = Bounds img' ->
  - 2 ^ 30 <= X (Min (Bounds img)) <= X (Max (Bounds img)) ->
  X (Max (Bounds img)) < 2 ^ 30 ->
  - 2 ^ 30 <= Y (Min (Bounds img)) <= Y (Max (Bounds img)) ->
  Y (Max (Bounds img)) < 2 ^ 30 ->
  (forall x y,
     X (Min (Bounds img)) <= x < X (Max (Bounds img)) ->
     Y (Min (Bounds img)) <= y < Y (Max (Bounds img)) ->
     chan8 (red (At img x y)) = chan8 (red (At img' x y)) /\
     chan8 (green (At img x y)) = chan8 (green (At img' x y)) /\
     chan8 (blue (At img x y)) = chan8 (blue (At img' x y)) /\
     chan8 (alpha (At img x y)) = chan8 (alpha (At img' x y))) ->
  To e img = To e img'.
Proof.
  intros Hb Hx Hx' Hy Hy' Hpix.
  apply To_texels; [assumption|].
  rewrite (imageToRGBA_ok img) by assumption.
  rewrite (imageToRGBA_ok img') by (rewrite <- Hb; assumption).
  f_equal. unfold texels. cbv zeta. rewrite <- Hb.
  apply flat_map_ext_in. intros y Hyin.
  apply elem_of_range in Hyin as [Hyin _]; [|lia].
  apply flat_map_ext_in. intros x Hxin.
  apply elem_of_range in Hxin as [Hxin _]; [|lia].
  f_equal. destruct (Hpix x y Hxin Hyin) as (Hr & Hg & Hbl & Ha).
  now apply pack_texel_chan8.
Qed.

Lemma conversion_reads_low_bytes_in_bounds_witness :
  To EncRGB5A3 (mkImage 0 0 2 1 (fun x y => rgba8 x 7 9 255))
  = To EncRGB5A3
      (mkImage 0 0 2 1
         (fun x y => if x <? 2
                     then {| red := x + 0x300; green := 7; blue := 9; alpha := 0xABFF |}
                     else rgba8 1 2 3 4)).
Proof.
  apply conversion_reads_low_bytes_in_bounds; [reflexivity|cbn; lia..|].
  intros x y Hx Hy. cbn in Hx, Hy.
  assert (x = 0 \/ x = 1) as [-> | ->] by lia; repeat split; reflexivity.
Defined.

(** ** Padding positions *)

Lemma padded_eq W b :
  0 <= W < 2 ^ 61 -> 0 < b < 2 ^ 61 -> b * Z.of_nat (blocks W b) = addPadding W b.
Proof. intros HW Hb. now rewrite addPadding_blocks_nat. Qed.

(** X6: in the I4, IA4 and RGB565 payloads every position of the padded
    grid that lies at or beyond the width or the height holds zero: one
    zero byte per pair for I4 (pairs starting at an even x), one zero
    byte for IA4, two zero bytes for RGB565, each at the position's place
    in the block-tiled order. *)
Theorem padding_zero_filled img :
  at_origin img ->
  let W := width_of img in
  let H := height_of img in
  (exists out, ToI4_output img = Ok out /\
     forall x y,
       0 <= x < addPadding W 8 -> 0 <= y < addPadding H 8 -> x mod 2 = 0 ->
       W <= x \/ H <= y ->
       out !! tile_index W 8 8 2 x y = Some 0)
  /\ (exists out, ToIA4_output img = Ok out /\
        forall x y,
          0 <= x < addPadding W 8 -> 0 <= y < addPadding H 4 ->
          W <= x \/ H <= y ->
          out !! tile_index W 8 4 1 x y = Some 0)
  /\ (exists out, ToRGB565_output img = Ok out /\
        forall x y,
          0 <= x < addPadding W 4 -> 0 <= y < addPadding H 4 ->
          W <= x \/ H <= y ->
          out !! (tile_index W 4 4 1 x y * 2)%nat = Some 0 /\
          out !! (tile_index W 4 4 1 x y * 2 + 1)%nat = Some 0).
Proof.
  intros Ho W H. pose proof Ho as (_ & _ & HW & HH). fold W in HW. fold H in HH.
  split; [|split].
  - eexists. split; [now apply ToI4_output_eq|].
    intros x y Hx Hy Heven Hout. fold W H.
    rewrite <- (Nat.add_0_r (tile_index _ _ _ _ _ _)).
    rewrite <- (Nat.mul_1_r (tile_index _ _ _ _ _ _)).
    rewrite (lookup_tiled_padded _ _ _ _ _ _ 1%nat 0%nat x y);
      try lia; try reflexivity.
    + unfold I4_cell. fold W H.
      destruct (Z.geb_spec x W); [reflexivity|].
      destruct (Z.geb_spec y H); [reflexivity|lia].
    + rewrite padded_eq by lia. lia.
    + rewrite padded_eq by lia. lia.
    + revert Heven. clear. intros Heven. Z.div_mod_to_equations. lia.
  - eexists. split; [now apply ToIA4_output_eq|].
    intros x y Hx Hy Hout. fold W H.
    rewrite <- (Nat.add_0_r (tile_index _ _ _ _ _ _)).
    rewrite <- (Nat.mul_1_r (tile_index _ _ _ _ _ _)).
    rewrite (lookup_tiled_padded _ _ _ _ _ _ 1%nat 0%nat x y);
      try lia; try reflexivity.
    + unfold IA4_cell. fold W H.
      destruct (Z.geb_spec y H); [reflexivity|].
      destruct (Z.geb_spec x W); [reflexivity|lia].
    + rewrite padded_eq by lia. lia.
    + rewrite padded_eq by lia. lia.
    + apply Z.mod_1_r.
  - eexists. split; [now apply ToRGB565_output_eq|].
    intros x y Hx Hy Hout. fold W H.
    assert (RGB565_cell img x y = [0; 0]) as Hcell.
    { unfold RGB565_cell. fold W H.
      destruct (Z.geb_spec y H); [reflexivity|].
      destruct (Z.geb_spec x W); [reflexivity|lia]. }
    split.
    + rewrite <- (Nat.add_0_r (_ * 2)).
      rewrite (lookup_tiled_padded _ _ _ _ _ _ 2%nat 0%nat x y); try lia.
      * now rewrite Hcell.
      * apply length_RGB565_cell.
      * rewrite padded_eq by lia. lia.
      * rewrite padded_eq by lia. lia.
      * apply Z.mod_1_r.
    + rewrite (lookup_tiled_padded _ _ _ _ _ _ 2%nat 1%nat x y); try lia.
      * now rewrite Hcell.
      * apply length_RGB565_cell.
      * rewrite padded_eq by lia. lia.
      * rewrite padded_eq by lia. lia.
      * apply Z.mod_1_r.
Qed.

Lemma padding_zero_filled_witness :
  exists out,
    ToIA4_output (uniform 9 3 (rgba8 255 255 255 255)) = Ok out /\
    out !! tile_index 9 8 4 1 9 0 = Some 0 /\
    out !! tile_index 9 8 4 1 2 3 = Some 0.
Proof.
  destruct (padding_zero_filled (uniform 9 3 (rgba8 255 255 255 255)))
    as (_ & (out & Hout & Hzero) & _).
  - apply at_origin_uniform; lia.
  - exists out. split; [exact Hout|]. split.
    + apply (Hzero 9 0); [vm_compute; split; [discriminate|reflexivity]..|left; cbn; lia].
    + apply (Hzero 2 3); [vm_compute; split; [discriminate|reflexivity]..|right; cbn; lia].
Defined.

(** X7: with an odd width the last texel of a row of an I4 image is
    paired with the first texel of the next row: the low nibble of its
    byte is that texel's quantized intensity, not zero. *)
Theorem I4_odd_width_wraps img y :
  at_origin img -> width_of img mod 2 = 1 ->
  0 <= y -> y + 1 < height_of img ->
  exists out byte,
    ToI4_output img = Ok out /\
    out !! tile_index (width_of img) 8 8 2 (width_of img - 1) y = Some byte /\
    byte / 16 = intensity (At img (width_of img - 1) y) * 15 / 255 /\
    byte mod 16 = intensity (At img 0 (y + 1)) * 15 / 255.
Proof.
  intros Ho Hodd Hy Hy1. pose proof Ho as (_ & _ & HW & HH).
  set (W := width_of img) in *. set (H := height_of img) in *.
  assert (0 < W) by (destruct (Z.eq_dec W 0) as [E|]; [rewrite E in Hodd; discriminate|lia]).
  exists (tiled W H 8 8 2 (fun x y => [I4_cell img x y])), (I4_cell img (W - 1) y).
  split; [now apply ToI4_output_eq|]. split.
  - rewrite <- (Nat.add_0_r (tile_index _ _ _ _ _ _)).
    rewrite <- (Nat.mul_1_r (tile_index _ _ _ _ _ _)).
    rewrite (lookup_tiled_xy _ _ _ _ _ _ 1%nat 0%nat (W - 1) y);
      try lia; try reflexivity.
    revert Hodd. clear. intros Hodd. Z.div_mod_to_equations. lia.
  - unfold I4_cell. fold W H.
    destruct (Z.geb_spec (W - 1) W); [lia|].
    destruct (Z.geb_spec y H); [lia|].
    cbn [orb]. cbv zeta. subst W H.
    replace (width_of img - 1 + y * width_of img + 1)
      with (0 + (y + 1) * width_of img) by lia.
    rewrite lookup_texels_origin by (assumption || lia).
    cbn [default option_map id]. rewrite I4_intensity_pack.
    pose proof (quant_range _ 15 (intensity_range (At img (width_of img - 1) y))
                  ltac:(lia)) as Hq1.
    pose proof (quant_range _ 15 (intensity_range (At img 0 (y + 1))) ltac:(lia)) as Hq2.
    destruct (nibbles _ _ Hq1 Hq2) as [Hhi Hlo]. rewrite Hhi, Hlo.
    split; reflexivity.
Qed.

Lemma I4_odd_width_wraps_witness :
  exists out byte,
    ToI4_output
      (mkImage 0 0 1 2 (fun x y => if y =? 0 then rgba8 0 0 0 255
                                   else rgba8 255 255 255 255)) = Ok out /\
    out !! 0%nat = Some byte /\ byte / 16 = 0 /\ byte mod 16 = 15.
Proof.
  destruct (I4_odd_width_wraps
              (mkImage 0 0 1 2 (fun x y => if y =? 0 then rgba8 0 0 0 255
                                           else rgba8 255 255 255 255)) 0)
    as (out & byte & Hout & Hbyte & Hhi & Hlo).
  - repeat split; cbn; lia.
  - reflexivity.
  - lia.
  - cbn. lia.
  - exists out, byte. split; [exact Hout|]. split; [exact Hbyte|].
    split; [exact Hhi|exact Hlo].
Defined.

(** ** The layout of the RGB5A3 payload *)

Lemma elem_of_block_range W b i :
  0 < b -> i ∈ range 0 W b ->
  0 <= i < W /\ i + b <= b * Z.of_nat (blocks W b).
Proof.
  intros Hb Hin. apply elem_of_range in Hin as [Hi (k & ->)]; [|assumption].
  split; [assumption|].
  pose proof (padded_le W b ltac:(lia) Hb) as Hle.
  assert (Z.of_nat k < Z.of_nat (blocks W b)) as Hk.
  { apply (Z.mul_lt_mono_pos_r b); lia. }
  nia.
Qed.

Lemma tiled_ext {A : Type} (f g : Z -> Z -> list A) W H bw bh sx :
  0 < bw -> 0 < bh -> 0 < sx ->
  (forall x y,
     0 <= x < bw * Z.of_nat (blocks W bw) ->
     0 <= y < bh * Z.of_nat (blocks H bh) -> f x y = g x y) ->
  tiled W H bw bh sx f = tiled W H bw bh sx g.
Proof.
  intros Hbw Hbh Hsx Hfg. unfold tiled.
  apply flat_map_ext_in. intros y1 Hy1.
  apply elem_of_block_range in Hy1 as [Hy1 Hy1']; [|assumption].
  apply flat_map_ext_in. intros x1 Hx1.
  apply elem_of_block_range in Hx1 as [Hx1 Hx1']; [|assumption].
  apply flat_map_ext_in. intros y Hy.
  apply elem_of_range in Hy as [Hy _]; [|lia].
  apply flat_map_ext_in. intros x Hx.
  apply elem_of_range in Hx as [Hx _]; [|assumption].
  apply Hfg; lia.
Qed.

Lemma blocks_exact W b :
  0 <= W -> 0 < b -> W mod b = 0 -> b * Z.of_nat (blocks W b) = W.
Proof.
  intros HW Hb Hmod. unfold blocks.
  rewrite Z2Nat.id by (apply Z.div_pos; lia).
  pose proof (Z.div_mod W b ltac:(lia)) as Hd. rewrite Hmod in Hd.
  rewrite <- (Z.div_unique (W + b - 1) b (W / b) (b - 1)) by lia. lia.
Qed.

(** X8: when the width and the height are multiples of 4 the RGB5A3
    encoder fills the whole payload, and the two bytes of every texel sit,
    high byte first, at the texel's place in the 4x4-tiled order: the
    layout RGB565 has for every size. *)
Theorem RGB5A3_aligned_layout img :
  at_origin img -> width_of img mod 4 = 0 -> height_of img mod 4 = 0 ->
  exists out,
    ToRGB5A3_output img = Ok out /\
    len out = width_of img * height_of img * 2 /\
    forall x y,
      0 <= x < width_of img -> 0 <= y < height_of img ->
      let v := RGB5A3_texel (pack_texel (At img x y)) in
      out !! (tile_index (width_of img) 4 4 1 x y * 2)%nat = Some (v / 256) /\
      out !! (tile_index (width_of img) 4 4 1 x y * 2 + 1)%nat = Some (v mod 256).
Proof.
  intros Ho HWm HHm. pose proof Ho as (_ & _ & HW & HH).
  set (cell := fun x y => [RGB5A3_texel (pack_texel (At img x y)) / 256;
                           RGB5A3_texel (pack_texel (At img x y)) mod 256]).
  assert (tiled (width_of img) (height_of img) 4 4 1 (RGB5A3_cell img)
          = tiled (width_of img) (height_of img) 4 4 1 cell) as Hext.
  { apply tiled_ext; try lia. intros x y Hx Hy.
    rewrite blocks_exact in Hx, Hy by lia.
    unfold RGB5A3_cell, cell.
    destruct (Z.geb_spec y (height_of img)); [lia|].
    destruct (Z.geb_spec x (width_of img)); [lia|].
    cbn [orb]. now rewrite RGB5A3_texel_pack. }
  assert (length (tiled (width_of img) (height_of img) 4 4 1 cell)
          = Z.to_nat (width_of img * height_of img * 2)) as Hlen.
  { rewrite (length_tiled _ _ _ _ _ _ 2%nat) by reflexivity.
    change (blocks 4 1) with 4%nat.
    pose proof (blocks_exact (width_of img) 4 ltac:(lia) ltac:(lia) HWm).
    pose proof (blocks_exact (height_of img) 4 ltac:(lia) ltac:(lia) HHm).
    nia. }
  exists (tiled (width_of img) (height_of img) 4 4 1 cell).
  split; [|split].
  - rewrite ToRGB5A3_output_eq, Hext, Hlen by assumption.
    rewrite (proj2 (proj2 (addPadding_spec (width_of img) 4 ltac:(lia) ltac:(lia))) HWm).
    rewrite (proj2 (proj2 (addPadding_spec (height_of img) 4 ltac:(lia) ltac:(lia))) HHm).
    rewrite Nat.sub_diag. cbn [replicate]. now rewrite app_nil_r.
  - unfold len. rewrite Hlen. nia.
  - intros x y Hx Hy v. split.
    + rewrite <- (Nat.add_0_r (_ * 2)).
      rewrite (lookup_tiled_xy _ _ _ _ _ _ 2%nat 0%nat x y);
        try lia; try reflexivity. apply Z.mod_1_r.
    + rewrite (lookup_tiled_xy _ _ _ _ _ _ 2%nat 1%nat x y);
        try lia; try reflexivity. apply Z.mod_1_r.
Qed.

Lemma RGB5A3_aligned_layout_witness :
  exists out,
    ToRGB5A3_output (mkImage 0 0 8 4 (fun x y => rgba8 (x * 30) 0 0 255)) = Ok out /\
    len out = 64 /\
    out !! (tile_index 8 4 4 1 5 2 * 2)%nat = Some 0xC8 /\
    out !! (tile_index 8 4 4 1 5 2 * 2 + 1)%nat = Some 0x00.
Proof.
  destruct (RGB5A3_aligned_layout (mkImage 0 0 8 4 (fun x y => rgba8 (x * 30) 0 0 255)))
    as (out & Hout & Hlen & Hat).
  - repeat split; cbn; lia.
  - reflexivity.
  - reflexivity.
  - exists out. split; [exact Hout|]. split; [exact Hlen|].
    apply (Hat 5 2); cbn; lia.
Defined.

Lemma length_flat_map_scaled {A B : Type} (F : A -> list B) (c : A -> nat)
    (K : nat) (l : list A) :
  (forall a, a ∈ l -> length (F a) = (K * c a)%nat) ->
  length (flat_map F l) = (K * list_sum (map c l))%nat.
Proof.
  induction l as [|a l IH]; intros HF.
  - cbn. lia.
  - cbn [flat_map map].
    change (list_sum (c a :: map c l)) with (c a + list_sum (map c l))%nat.
    rewrite length_app, HF, IH; [lia| |left].
    intros b Hb. apply HF. now right.
Qed.

(** Of the positions [lo, lo+1, ..., hi-1], those below [W]. *)
Lemma count_below W hi :
  forall (n : nat) lo, hi - lo <= Z.of_nat n -> lo <= hi ->
    list_sum (map (fun x => if x <? W then 1%nat else 0%nat) (range lo hi 1))
    = Z.to_nat (Z.min hi W - lo).
Proof.
  induction n as [|n IH]; intros lo Hn Hlo.
  - rewrite range_nil by lia. change (list_sum (map _ [])) with 0%nat. lia.
  - destruct (Z.eq_dec lo hi) as [->|Hne].
    + rewrite range_nil by lia. change (list_sum (map _ [])) with 0%nat. lia.
    + rewrite range_cons by lia. cbn [map].
      change (list_sum (?a :: ?l)) with (a + list_sum l)%nat.
      rewrite IH by lia. destruct (Z.ltb_spec lo W); lia.
Qed.

(** Summed over the blocks [lo, lo+b, ...] below [W], the positions of
    each block that are below [W]. *)
Lemma count_blocks W b :
  0 < b ->
  forall (n : nat) lo, W - lo <= Z.of_nat n ->
    list_sum (map (fun x1 => Z.to_nat (Z.min (x1 + b) W - x1)) (range lo W b))
    = Z.to_nat (W - lo).
Proof.
  intros Hb. induction n as [|n IH]; intros lo Hn.
  - rewrite range_nil by lia. change (list_sum (map _ [])) with 0%nat. lia.
  - destruct (Z_lt_le_dec lo W) as [Hlt|Hge].
    + rewrite range_cons by lia. cbn [map].
      change (list_sum (?a :: ?l)) with (a + list_sum l)%nat.
      rewrite IH by lia. lia.
    + rewrite range_nil by lia. change (list_sum (map _ [])) with 0%nat. lia.
Qed.

Lemma length_RGB5A3_written img :
  0 <= width_of img -> 0 <= height_of img ->
  length (tiled (width_of img) (height_of img) 4 4 1 (RGB5A3_cell img))
  = (2 * (Z.to_nat (width_of img) * Z.to_nat (height_of img)))%nat.
Proof.
  intros HW HH.
  set (W := width_of img) in *. set (H := height_of img) in *.
  set (gx := fun x => if x <? W then 1%nat else 0%nat).
  set (gy := fun y => if y <? H then 1%nat else 0%nat).
  set (cx := fun x1 => Z.to_nat (Z.min (x1 + 4) W - x1)).
  set (cy := fun y1 => Z.to_nat (Z.min (y1 + 4) H - y1)).
  assert (forall x y, length (RGB5A3_cell img x y) = (2 * gy y * gx x)%nat) as Hcell.
  { intros x y. unfold RGB5A3_cell, gx, gy. fold W H.
    destruct (Z.geb_spec y H), (Z.geb_spec x W);
      destruct (Z.ltb_spec y H), (Z.ltb_spec x W); cbn; lia. }
  unfold tiled.
  rewrite (length_flat_map_scaled _ cy (2 * Z.to_nat W)).
  { unfold cy. rewrite (count_blocks H 4 ltac:(lia) (Z.to_nat H)) by lia.
    rewrite Z.sub_0_r. lia. }
  intros y1 _.
  rewrite (length_flat_map_scaled _ cx (2 * cy y1)).
  { unfold cx. rewrite (count_blocks W 4 ltac:(lia) (Z.to_nat W)) by lia.
    rewrite Z.sub_0_r. lia. }
  intros x1 _.
  rewrite (length_flat_map_scaled _ gy (2 * cx x1)).
  { unfold gy. rewrite (count_below H (y1 + 4) 4) by lia. unfold cy. lia. }
  intros y _.
  rewrite (length_flat_map_scaled _ gx (2 * gy y)).
  { unfold gx. rewrite (count_below W (x1 + 4) 4) by lia. unfold cx. lia. }
  intros x _. apply Hcell.
Qed.

(** X9: for every size the RGB5A3 encoder writes exactly 2 * W * H
    bytes, the two bytes of each in-bounds texel in the order the block
    loops visit them with nothing for the positions outside the image,
    and leaves the rest of the payload, 2 * (pad(W) * pad(H) - W * H)
    bytes at its end, zero. *)
Theorem RGB5A3_compacted img :
  at_origin img ->
  let W := width_of img in
  let H := height_of img in
  exists written,
    ToRGB5A3_output img
    = Ok (written
          ++ replicate (Z.to_nat (2 * (addPadding W 4 * addPadding H 4 - W * H))) 0) /\
    len written = 2 * W * H /\
    written
    = tiled W H 4 4 1
        (fun x y =>
           if (y >=? H) || (x >=? W) then []
           else [RGB5A3_texel (pack_texel (At img x y)) / 256;
                 RGB5A3_texel (pack_texel (At img x y)) mod 256]).
Proof.
  intros Ho W H. pose proof Ho as (_ & _ & HW & HH). fold W in HW. fold H in HH.
  exists (tiled W H 4 4 1 (RGB5A3_cell img)).
  pose proof (length_RGB5A3_written img ltac:(fold W; lia) ltac:(fold H; lia)) as Hlen.
  fold W H in Hlen.
  split; [|split].
  - rewrite ToRGB5A3_output_eq by assumption. fold W H. rewrite Hlen.
    do 3 f_equal.
    destruct (addPadding_spec W 4) as (_ & HWp & _); [lia..|].
    destruct (addPadding_spec H 4) as (_ & HHp & _); [lia..|].
    nia.
  - unfold len. rewrite Hlen. nia.
  - apply tiled_ext; try lia. intros x y _ _.
    unfold RGB5A3_cell. fold W H.
    destruct ((y >=? H) || (x >=? W)); [reflexivity|].
    now rewrite RGB5A3_texel_pack.
Qed.

Lemma RGB5A3_compacted_witness :
  exists written,
    ToRGB5A3_output (uniform 5 3 (rgba8 255 255 255 255))
    = Ok (written ++ replicate 34 0) /\
    len written = 30.
Proof.
  destruct (RGB5A3_compacted (uniform 5 3 (rgba8 255 255 255 255)))
    as (written & Hout & Hlen & _).
  - apply at_origin_uniform; lia.
  - exists written. split; [exact Hout|exact Hlen].
Defined.

(** ** Bounds that do not start at the origin *)

Lemma bind_ok_or_oor {A B : Type} (m : result A) (k : A -> result B) :
  ok_or_oor m -> (forall a, ok_or_oor (k a)) -> ok_or_oor (bind m k).
Proof. destruct m as [a| |[]|]; cbn; intros Hm Hk; auto. Qed.

Lemma index_ok_or_oor l i : ok_or_oor (index l i).
Proof.
  unfold index. destruct (i <? 0); [exact I|].
  destruct (l !! Z.to_nat i); exact I.
Qed.

Lemma assign_ok_or_oor l i v : ok_or_oor (assign l i v).
Proof. unfold assign. destruct (_ || _); exact I. Qed.

Lemma index_oor l i : len l <= i -> index l i = Panic IndexOutOfRange.
Proof.
  intros Hi. unfold index. destruct (i <? 0); [reflexivity|].
  rewrite lookup_ge_None_2; [reflexivity|]. unfold len in Hi. lia.
Qed.

Lemma foldM_ok_or_oor {S : Type} (body : Z -> S -> result S) (l : list Z) :
  (forall i s, i ∈ l -> ok_or_oor (body i s)) ->
  forall s, ok_or_oor (foldM body l s).
Proof.
  induction l as [|i l IH]; intros Hb s; cbn [foldM]; [exact I|].
  apply bind_ok_or_oor; [apply Hb; left|].
  intros s'. apply IH. intros j s'' Hj. apply Hb. now right.
Qed.

Lemma foldM_oor {S : Type} (body : Z -> S -> result S) (l : list Z) (i : Z) :
  (forall j s, j ∈ l -> ok_or_oor (body j s)) ->
  i ∈ l -> (forall s, body i s = Panic IndexOutOfRange) ->
  forall s, foldM body l s = Panic IndexOutOfRange.
Proof.
  induction l as [|j l IH]; intros Hb Hin Hi s.
  - apply elem_of_nil in Hin. contradiction.
  - cbn [foldM]. apply elem_of_cons in Hin as [<-|Hin].
    + now rewrite Hi.
    + pose proof (Hb j s ltac:(left)) as Hj.
      destruct (body j s) as [s'| |[]|]; cbn in Hj |- *; try contradiction;
        [|reflexivity].
      apply IH; [|assumption..]. intros k s'' Hk. apply Hb. now right.
Qed.

Lemma for_ok_or_oor {S : Type} (body : Z -> S -> result S) lo hi step s :
  0 < step -> - 2 ^ 63 <= lo -> hi + step <= 2 ^ 63 ->
  (forall i s', i ∈ range lo hi step -> ok_or_oor (body i s')) ->
  ok_or_oor (for_ lo hi step body s).
Proof.
  intros Hs Hlo Hhi Hb. rewrite for_foldM by assumption.
  now apply foldM_ok_or_oor.
Qed.

Lemma for_oor {S : Type} (body : Z -> S -> result S) lo hi step i s :
  0 < step -> - 2 ^ 63 <= lo -> hi + step <= 2 ^ 63 ->
  (forall j s', j ∈ range lo hi step -> ok_or_oor (body j s')) ->
  i ∈ range lo hi step -> (forall s', body i s' = Panic IndexOutOfRange) ->
  for_ lo hi step body s = Panic IndexOutOfRange.
Proof.
  intros Hs Hlo Hhi Hb Hin Hi. rewrite for_foldM by assumption.
  now apply (foldM_oor body _ i).
Qed.

(** The block loops, when the body at one in-bounds position panics. *)
Lemma tiled_loops_oor {S : Type} (body : Z -> Z -> S -> result S) W H bw bh x y s :
  0 < bw < 2 ^ 61 -> 0 < bh < 2 ^ 61 -> W < 2 ^ 61 -> H < 2 ^ 61 ->
  (forall x' y' s', ok_or_oor (body x' y' s')) ->
  0 <= x < W -> 0 <= y < H ->
  (forall s', body x y s' = Panic IndexOutOfRange) ->
  for_ 0 H bh (fun y1 =>
    for_ 0 W bw (fun x1 =>
      for_ y1 (int (y1 + bh)) 1 (fun y' =>
        for_ x1 (int (x1 + bw)) 1 (fun x' => body x' y')))) s
  = Panic IndexOutOfRange.
Proof.
  intros Hbw Hbh HW HH Hok Hx Hy Hpanic.
  pose proof (Z.div_mod x bw ltac:(lia)) as Hxd.
  pose proof (Z.mod_pos_bound x bw ltac:(lia)) as Hxm.
  pose proof (Z.div_mod y bh ltac:(lia)) as Hyd.
  pose proof (Z.mod_pos_bound y bh ltac:(lia)) as Hym.
  assert (0 <= x / bw) by (apply Z.div_pos; lia).
  assert (0 <= y / bh) by (apply Z.div_pos; lia).
  set (x1 := bw * (x / bw)) in *. set (y1 := bh * (y / bh)) in *.
  assert (y1 ∈ range 0 H bh) as Hy1.
  { apply elem_of_range_intro; [lia|nia|].
    unfold y1. rewrite Z.sub_0_r, Z.mul_comm. apply Z.mod_mul. lia. }
  assert (x1 ∈ range 0 W bw) as Hx1.
  { apply elem_of_range_intro; [lia|nia|].
    unfold x1. rewrite Z.sub_0_r, Z.mul_comm. apply Z.mod_mul. lia. }
  assert (forall xa ya s', 0 <= xa < W ->
            ok_or_oor (for_ xa (int (xa + bw)) 1 (fun x' => body x' ya) s')) as Hokx.
  { intros xa ya s' Hxa. rewrite int_small by lia.
    apply for_ok_or_oor; try lia. intros; apply Hok. }
  assert (forall xa ya s', 0 <= xa < W -> 0 <= ya < H ->
            ok_or_oor (for_ ya (int (ya + bh)) 1 (fun y' =>
              for_ xa (int (xa + bw)) 1 (fun x' => body x' y')) s')) as Hoky.
  { intros xa ya s' Hxa Hya. rewrite int_small by lia.
    apply for_ok_or_oor; try lia. intros; now apply Hokx. }
  assert (forall ya s', 0 <= ya < H ->
            ok_or_oor (for_ 0 W bw (fun xa =>
              for_ ya (int (ya + bh)) 1 (fun y' =>
                for_ xa (int (xa + bw)) 1 (fun x' => body x' y'))) s')) as Hokx1.
  { intros ya s' Hya. apply for_ok_or_oor; try lia.
    intros xa s'' Hxa. apply elem_of_range in Hxa as [Hxa _]; [|lia].
    now apply Hoky. }
  apply (for_oor _ _ _ _ y1); try lia.
  { intros ya s' Hya. apply elem_of_range in Hya as [Hya _]; [|lia].
    now apply Hokx1. }
  { exact Hy1. }
  intros s1. apply (for_oor _ _ _ _ x1); try lia.
  { intros xa s' Hxa. apply elem_of_range in Hxa as [Hxa _]; [|lia].
    apply Hoky; [assumption|unfold y1; nia]. }
  { exact Hx1. }
  intros s2. rewrite (int_small (y1 + bh)) by (unfold y1; nia).
  apply (for_oor _ _ _ _ y); try (unfold y1; nia).
  { intros ya s' Hya. apply Hokx. unfold x1. nia. }
  { apply elem_of_range_intro; [lia|unfold y1; lia|apply Z.mod_1_r]. }
  intros s3. rewrite (int_small (x1 + bw)) by (unfold x1; nia).
  apply (for_oor _ _ _ _ x); try (unfold x1; nia).
  { intros; apply Hok. }
  { apply elem_of_range_intro; [lia|unfold x1; lia|apply Z.mod_1_r]. }
  exact Hpanic.
Qed.

Lemma make_loops_oor (n c : Z) (m : list Z * Z -> result (list Z * Z)) :
  0 <= n -> (forall s, m s = Panic IndexOutOfRange) ->
  (let* output := make n in
   let* st := m (output, c) in
   Ok (fst st))
  = Panic IndexOutOfRange.
Proof.
  intros Hn Hm. unfold make. destruct (Z.ltb_spec n 0); [lia|].
  cbn [bind]. now rewrite Hm.
Qed.

Lemma newPixel_oor (raw : list Z) W x y :
  0 <= x -> 0 <= y -> 0 <= W < 2 ^ 30 -> x < W -> y < 2 ^ 30 ->
  len raw <= x + y * W ->
  index raw (int (x + int (y * W))) = Panic IndexOutOfRange.
Proof.
  intros Hx Hy HW HxW HyH Hlen.
  assert (0 <= y * W < 2 ^ 60) by nia.
  rewrite (int_small (y * W)), int_small by lia.
  now apply index_oor.
Qed.

(** X10: an image whose bounds do not start at the origin (a sub-image,
    say) makes the IA4, RGB565 and RGB5A3 conversions panic: the texel
    array has the size of the extent, and the encoders index it by the
    maximum corner, so the last texel they read is outside the array. *)
Theorem offset_bounds_panic img :
  0 <= X (Min (Bounds img)) <= X (Max (Bounds img)) ->
  0 <= Y (Min (Bounds img)) <= Y (Max (Bounds img)) ->
  0 < width_of img < 2 ^ 30 -> 0 < height_of img < 2 ^ 30 ->
  0 < X (Min (Bounds img)) \/ 0 < Y (Min (Bounds img)) ->
  To EncIA4 img = Panic IndexOutOfRange /\
  To EncRGB565 img = Panic IndexOutOfRange /\
  To EncRGB5A3 img = Panic IndexOutOfRange.
Proof.
  intros Hx Hy HW HH Hoff.
  assert (imageToRGBA img = Ok (texels img)) as Hraw.
  { unfold width_of, height_of in *. apply imageToRGBA_ok; lia. }
  set (W := width_of img) in *. set (H := height_of img) in *.
  assert (len (texels img) <= (W - 1) + (H - 1) * W) as Hlen.
  { unfold len. rewrite length_texels. unfold W, H, width_of, height_of in *. nia. }
  pose proof (newPixel_oor (texels img) W (W - 1) (H - 1)
                ltac:(lia) ltac:(lia) ltac:(lia) ltac:(lia) ltac:(lia) Hlen) as Hidx.
  destruct (IA4_size W H ltac:(lia) ltac:(lia)) as [HszIA4 _].
  destruct (RGB_size W H ltac:(lia) ltac:(lia)) as [HszRGB _].
  split; [|split]; cbn [To].
  - unfold ToIA4, ToIA4_output. rewrite Hraw. cbn [bind]. cbv zeta. fold W H.
    rewrite make_loops_oor; [reflexivity|lia|].
    intros s.
    apply (tiled_loops_oor
             (fun x y '(output, inp) =>
                let* newPixel := IA4_newPixel (texels img) W H x y in
                let* output := assign output inp newPixel in
                Ok (output, int (inp + 1))) W H 8 4 (W - 1) (H - 1)); try lia.
    + intros x' y' [output inp]. apply bind_ok_or_oor.
      * unfold IA4_newPixel. destruct (_ || _); [exact I|].
        apply bind_ok_or_oor; [apply index_ok_or_oor|intros; exact I].
      * intros np. apply bind_ok_or_oor; [apply assign_ok_or_oor|intros; exact I].
    + intros [output inp]. unfold IA4_newPixel.
      destruct (Z.geb_spec (H - 1) H); [lia|].
      destruct (Z.geb_spec (W - 1) W); [lia|].
      cbn [orb]. now rewrite Hidx.
  - unfold ToRGB565, ToRGB565_output. rewrite Hraw. cbn [bind]. cbv zeta. fold W H.
    rewrite make_loops_oor; [reflexivity|lia|].
    intros s.
    apply (tiled_loops_oor (RGB565_step (texels img) W H) W H 4 4 (W - 1) (H - 1));
      try lia.
    + intros x' y' [output z]. unfold RGB565_step. apply bind_ok_or_oor.
      * unfold RGB565_newPixel. destruct (_ || _); [exact I|].
        apply bind_ok_or_oor; [apply index_ok_or_oor|intros; exact I].
      * intros np. cbv zeta. apply bind_ok_or_oor; [apply assign_ok_or_oor|].
        intros o. apply bind_ok_or_oor; [apply assign_ok_or_oor|intros; exact I].
    + intros [output z]. unfold RGB565_step, RGB565_newPixel.
      destruct (Z.geb_spec (H - 1) H); [lia|].
      destruct (Z.geb_spec (W - 1) W); [lia|].
      cbn [orb]. now rewrite Hidx.
  - unfold ToRGB5A3, ToRGB5A3_output. rewrite Hraw. cbn [bind]. cbv zeta. fold W H.
    rewrite make_loops_oor; [reflexivity|lia|].
    intros s.
    apply (tiled_loops_oor (RGB5A3_step (texels img) W H) W H 4 4 (W - 1) (H - 1));
      try lia.
    + intros x' y' [output z]. unfold RGB5A3_step.
      destruct (_ || _); [exact I|].
      apply bind_ok_or_oor; [apply index_ok_or_oor|].
      intros rgba. cbv zeta. apply bind_ok_or_oor; [apply assign_ok_or_oor|].
      intros o. apply bind_ok_or_oor; [apply assign_ok_or_oor|intros; exact I].
    + intros [output z]. unfold RGB5A3_step.
      destruct (Z.geb_spec (H - 1) H); [lia|].
      destruct (Z.geb_spec (W - 1) W); [lia|].
      cbn [orb]. now rewrite Hidx.
Qed.

Lemma offset_bounds_panic_witness :
  To EncIA4 (mkImage 2 0 10 4 (fun _ _ => rgba8 1 2 3 4)) = Panic IndexOutOfRange /\
  To EncRGB565 (mkImage 2 0 10 4 (fun _ _ => rgba8 1 2 3 4)) = Panic IndexOutOfRange /\
  To EncRGB5A3 (mkImage 2 0 10 4 (fun _ _ => rgba8 1 2 3 4)) = Panic IndexOutOfRange.
Proof.
  apply (offset_bounds_panic (mkImage 2 0 10 4 (fun _ _ => rgba8 1 2 3 4)));
    cbn; lia.
Defined.

(** ** Channels an encoder does not use *)

Lemma I4_next_intensity img n :
  at_origin img -> 0 <= n ->
  I4_intensity (default 0 (texels img !! Z.to_nat n))
  = if n <? width_of img * height_of img
    then intensity (At img (n mod width_of img) (n / width_of img))
    else 0.
Proof.
  intros Ho Hn. pose proof Ho as (_ & _ & HW & HH).
  destruct (Z.ltb_spec n (width_of img * height_of img)) as [Hlt|Hge].
  - assert (0 < width_of img) by nia.
    pose proof (Z.div_mod n (width_of img) ltac:(lia)) as Hd.
    pose proof (Z.mod_pos_bound n (width_of img) ltac:(lia)) as Hm.
    assert (0 <= n / width_of img) by (apply Z.div_pos; lia).
    assert (n / width_of img < height_of img)
      by (apply Z.div_lt_upper_bound; lia).
    replace n with (n mod width_of img + n / width_of img * width_of img) at 1 by lia.
    rewrite lookup_texels_origin by (assumption || lia).
    cbn [default option_map id]. apply I4_intensity_pack.
  - rewrite lookup_ge_None_2; [reflexivity|].
    pose proof (len_texels img Ho) as Hlen. unfold len in Hlen. lia.
Qed.

Lemma at_origin_bounds img img' :
  Bounds img = Bounds img' -> at_origin img -> at_origin img'.
Proof. unfold at_origin, width_of, height_of. now intros <-. Qed.

(** X11: the I4 and RGB565 conversions ignore alpha: two images with the
    same bounds whose pixels inside the bounds agree on the low 8 bits of
    red, green and blue give the same blob, whatever their alpha. *)
Theorem alpha_ignored img img' :
  at_origin img -> Bounds img = Bounds img' ->
  (forall x y,
     0 <= x < width_of img -> 0 <= y < height_of img ->
     chan8 (red (At img x y)) = chan8 (red (At img' x y)) /\
     chan8 (green (At img x y)) = chan8 (green (At img' x y)) /\
     chan8 (blue (At img x y)) = chan8 (blue (At img' x y))) ->
  To EncI4 img = To EncI4 img' /\ To EncRGB565 img = To EncRGB565 img'.
Proof.
  intros Ho Hb Hpix.
  pose proof (at_origin_bounds img img' Hb Ho) as Ho'.
  pose proof Ho as (_ & _ & HW & HH).
  assert (width_of img' = width_of img) as HW'
    by (unfold width_of; now rewrite Hb).
  assert (height_of img' = height_of img) as HH'
    by (unfold height_of; now rewrite Hb).
  assert (forall x y, 0 <= x < width_of img -> 0 <= y < height_of img ->
            intensity (At img x y) = intensity (At img' x y)) as Hint.
  { intros x y Hx Hy. destruct (Hpix x y Hx Hy) as (Hr & Hg & Hbl).
    unfold intensity. now rewrite Hr, Hg, Hbl. }
  split; cbn [To].
  - unfold ToI4. rewrite !ToI4_output_eq by assumption.
    rewrite HW', HH'. cbn [bind]. f_equal.
    apply tiled_ext; try lia. intros x y Hx Hy.
    f_equal. unfold I4_cell. rewrite HW', HH'.
    destruct (Z.geb_spec x (width_of img)); [reflexivity|].
    destruct (Z.geb_spec y (height_of img)); [reflexivity|].
    cbn [orb]. cbv zeta.
    rewrite Hint by lia. f_equal. f_equal.
    rewrite !I4_next_intensity by (assumption || nia).
    rewrite HW', HH'.
    destruct (Z.ltb_spec (x + y * width_of img + 1) (width_of img * height_of img));
      [|reflexivity].
    apply Hint.
    + apply Z.mod_pos_bound. lia.
    + split; [apply Z.div_pos; nia|apply Z.div_lt_upper_bound; lia].
  - unfold ToRGB565. rewrite !ToRGB565_output_eq by assumption.
    rewrite HW', HH'. cbn [bind]. f_equal.
    apply tiled_ext; try lia. intros x y Hx Hy.
    unfold RGB565_cell. rewrite HW', HH'.
    destruct (Z.geb_spec y (height_of img)); [reflexivity|].
    destruct (Z.geb_spec x (width_of img)); [reflexivity|].
    cbn [orb]. destruct (Hpix x y ltac:(lia) ltac:(lia)) as (Hr & Hg & Hbl).
    unfold RGB565_value. now rewrite Hr, Hg, Hbl.
Qed.

Lemma alpha_ignored_witness :
  To EncI4 (uniform 3 2 (rgba8 10 20 30 255))
  = To EncI4 (mkImage 0 0 3 2 (fun x y => rgba8 10 20 30 (x + y))) /\
  To EncRGB565 (uniform 3 2 (rgba8 10 20 30 255))
  = To EncRGB565 (mkImage 0 0 3 2 (fun x y => rgba8 10 20 30 (x + y))).
Proof.
  apply alpha_ignored.
  - apply at_origin_uniform; lia.
  - reflexivity.
  - intros x y _ _. repeat split; reflexivity.
Defined.

(** ** Reading the header back *)

Lemma be16_u16_inj v v' :
  be16 (u16 v) = be16 (u16 v') <-> v mod 65536 = v' mod 65536.
Proof.
  rewrite !be16_u16. split.
  - intros Heq. injection Heq as Hhi Hlo.
    revert Hhi Hlo. Z.div_mod_to_equations. lia.
  - intros Heq. rewrite Heq. do 2 f_equal.
    revert Heq. Z.div_mod_to_equations. lia.
Qed.

Lemma be32_format_inj f f' :
  be32 (u32 (format_id f)) = be32 (u32 (format_id f')) <-> format_id f = format_id f'.
Proof.
  split.
  - destruct f, f'; intros Heq; try reflexivity; vm_compute in Heq; discriminate.
  - now intros ->.
Qed.

(** X12: the blob determines its payload, the format id and the width
    and height modulo 65536, and nothing more: two headers are equal
    exactly when these agree.  Widths that differ by a multiple of 65536
    give the same header. *)
Theorem header_round_trip raw raw' f f' w w' h h' :
  makeTPLHeader raw f w h = makeTPLHeader raw' f' w' h'
  <-> raw = raw' /\ format_id f = format_id f' /\
      w mod 65536 = w' mod 65536 /\ h mod 65536 = h' mod 65536.
Proof.
  rewrite !makeTPLHeader_eq. split.
  - intros Heq.
    assert (forall l l' : list Z, Ok l = Ok l' -> l = l') as Ok_inj
      by (intros l l' Hl; congruence).
    apply Ok_inj in Heq. clear Ok_inj.
    do 5 (apply app_inv_head in Heq).
    assert (length (be16 (u16 h)) = length (be16 (u16 h'))) as L1 by reflexivity.
    apply app_inj_1 in Heq as [Hh Heq]; [|exact L1].
    assert (length (be16 (u16 w)) = length (be16 (u16 w'))) as L2 by reflexivity.
    apply app_inj_1 in Heq as [Hw Heq]; [|exact L2].
    assert (length (be32 (u32 (format_id f))) = length (be32 (u32 (format_id f'))))
      as L3 by reflexivity.
    apply app_inj_1 in Heq as [Hf Heq]; [|exact L3].
    do 7 (apply app_inv_head in Heq).
    apply be16_u16_inj in Hh. apply be16_u16_inj in Hw.
    apply be32_format_inj in Hf. auto.
  - intros (-> & Hf & Hw & Hh).
    apply be16_u16_inj in Hh. apply be16_u16_inj in Hw.
    apply be32_format_inj in Hf. now rewrite Hh, Hw, Hf.
Qed.

Lemma header_round_trip_witness :
  makeTPLHeader [1; 2] I4 3 5 = makeTPLHeader [1; 2] I4 (3 + 65536) 5.
Proof.
  apply header_round_trip. repeat split; reflexivity.
Defined.

(** X13: the fields of the header the layout above leaves out.  Bytes
    12-19 hold the image offset 20 and the palette offset 0; bytes 24-27
    hold the format id, which is 0 for I4, 2 for IA4, 4 for RGB565 and 5
    for RGB5A3; bytes 32-39 hold the two wrap modes, 0; bytes 40-47 hold
    the two filters, 1.  The format id tells the encoder: no blob is the
    result of two different encoders. *)
Theorem header_format_and_sampler e img blob :
  To e img = Ok blob ->
  take 8 (drop 12 blob) = [0; 0; 0; 20; 0; 0; 0; 0] /\
  take 4 (drop 24 blob)
  = [0; 0; 0; match e with EncI4 => 0 | EncIA4 => 2 | EncRGB565 => 4 | EncRGB5A3 => 5 end] /\
  take 8 (drop 32 blob) = [0; 0; 0; 0; 0; 0; 0; 0] /\
  take 8 (drop 40 blob) = [0; 0; 0; 1; 0; 0; 0; 1] /\
  forall e' img', To e' img' = Ok blob -> e' = e.
Proof.
  intros Hto. apply To_inv in Hto as (payload & Hout & Hhdr).
  rewrite makeTPLHeader_eq in Hhdr.
  assert (forall l l' : list Z, Ok l = Ok l' -> l = l') as Ok_inj
    by (intros l l' Hl; congruence).
  apply Ok_inj in Hhdr. subst blob.
  split; [reflexivity|]. split; [now destruct e|].
  split; [reflexivity|]. split; [reflexivity|].
  intros e' img' Hto'. apply To_inv in Hto' as (payload' & _ & Hhdr').
  rewrite makeTPLHeader_eq in Hhdr'. apply Ok_inj in Hhdr'.
  apply (f_equal (fun l => take 4 (drop 24 l))) in Hhdr'.
  destruct e, e'; try reflexivity; vm_compute in Hhdr'; discriminate.
Qed.

Lemma header_format_and_sampler_witness :
  exists blob,
    To EncRGB5A3 (uniform 4 4 (rgba8 0 0 0 255)) = Ok blob /\
    take 4 (drop 24 blob) = [0; 0; 0; 5].
Proof.
  assert (exists blob, To EncRGB5A3 (uniform 4 4 (rgba8 0 0 0 255)) = Ok blob)
    as [blob Hblob] by (eexists; vm_compute; reflexivity).
  exists blob. split; [exact Hblob|].
  exact (proj1 (proj2 (header_format_and_sampler EncRGB5A3 _ blob Hblob))).
Defined.

(** ** One pixel, one place *)

Lemma tile_index_of_parts W bw bh (by_ bx dy dx : nat) :
  0 < bw -> 0 < bh ->
  (dy < Z.to_nat bh)%nat -> (dx < Z.to_nat bw)%nat ->
  tile_index W bw bh 1 (0 + Z.of_nat bx * bw + Z.of_nat dx * 1)
                       (0 + Z.of_nat by_ * bh + Z.of_nat dy * 1)
  = (((by_ * blocks W bw + bx) * blocks bh 1 + dy) * blocks bw 1 + dx)%nat.
Proof.
  intros Hbw Hbh Hdy Hdx. unfold tile_index.
  rewrite Z.div_1_r.
  replace (0 + Z.of_nat bx * bw + Z.of_nat dx * 1) with (Z.of_nat dx + Z.of_nat bx * bw) by lia.
  replace (0 + Z.of_nat by_ * bh + Z.of_nat dy * 1) with (Z.of_nat dy + Z.of_nat by_ * bh) by lia.
  rewrite !Z.div_add, !Z.mod_add by lia.
  rewrite !Z.div_small, !Z.mod_small by lia.
  rewrite !Z.add_0_l, !Nat2Z.id. reflexivity.
Qed.

(** Two tilings whose cells have one length and agree everywhere but at
    [(x0, y0)] agree everywhere but in the cells of [(x0, y0)]. *)
Lemma lookup_tiled_other {A : Type} (f g : Z -> Z -> list A) W H bw bh
    (L i : nat) x0 y0 :
  0 < bw -> 0 < bh ->
  (forall x y, length (f x y) = L) -> (forall x y, length (g x y) = L) ->
  (forall x y, (x, y) <> (x0, y0) -> f x y = g x y) ->
  (forall k, (k < L)%nat -> i <> (tile_index W bw bh 1 x0 y0 * L + k)%nat) ->
  tiled W H bw bh 1 f !! i = tiled W H bw bh 1 g !! i.
Proof.
  intros Hbw Hbh Hf Hg Hfg Hi.
  destruct (Nat.lt_ge_cases i (length (tiled W H bw bh 1 f))) as [Hlt|Hge].
  2: { rewrite !lookup_ge_None_2; [reflexivity| |assumption].
       rewrite (length_tiled g _ _ _ _ _ L) by assumption.
       now rewrite (length_tiled f _ _ _ _ _ L) in Hge by assumption. }
  rewrite (length_tiled f _ _ _ _ _ L) in Hlt by assumption.
  rewrite !blocks_1 in Hlt.
  set (nw := Z.to_nat bw) in *. set (nh := Z.to_nat bh) in *.
  set (n0 := blocks W bw) in *. set (n1 := blocks H bh) in *.
  assert (0 < nw)%nat by (unfold nw; lia).
  assert (0 < nh)%nat by (unfold nh; lia).
  assert (0 < L)%nat by (destruct L; [lia|lia]).
  assert (0 < n0)%nat by (destruct n0; [lia|lia]).
  set (k := (i mod L)%nat). set (q1 := (i / L)%nat).
  set (dx := (q1 mod nw)%nat). set (q2 := (q1 / nw)%nat).
  set (dy := (q2 mod nh)%nat). set (q3 := (q2 / nh)%nat).
  set (bx := (q3 mod n0)%nat). set (by_ := (q3 / n0)%nat).
  pose proof (Nat.div_mod_eq i L) as E1. fold k q1 in E1.
  pose proof (Nat.div_mod_eq q1 nw) as E2. fold dx q2 in E2.
  pose proof (Nat.div_mod_eq q2 nh) as E3. fold dy q3 in E3.
  pose proof (Nat.div_mod_eq q3 n0) as E4. fold bx by_ in E4.
  assert (k < L)%nat by (apply Nat.mod_upper_bound; lia).
  assert (dx < nw)%nat by (apply Nat.mod_upper_bound; lia).
  assert (dy < nh)%nat by (apply Nat.mod_upper_bound; lia).
  assert (bx < n0)%nat by (apply Nat.mod_upper_bound; lia).
  assert (q1 < n1 * (n0 * (nh * nw)))%nat.
  { apply Nat.Div0.div_lt_upper_bound. lia. }
  assert (q2 < n1 * (n0 * nh))%nat.
  { apply Nat.Div0.div_lt_upper_bound. lia. }
  assert (q3 < n1 * n0)%nat.
  { apply Nat.Div0.div_lt_upper_bound. lia. }
  assert (by_ < n1)%nat.
  { apply Nat.Div0.div_lt_upper_bound. lia. }
  assert (i = ((((by_ * n0 + bx) * nh + dy) * nw + dx) * L + k)%nat) as Ei by lia.
  pose proof (tile_index_of_parts W bw bh by_ bx dy dx Hbw Hbh ltac:(assumption)
                ltac:(assumption)) as Ht.
  rewrite !blocks_1 in Ht. fold n0 nw nh in Ht.
  rewrite Ei.
  pose proof (lookup_tiled f W H bw bh 1 L by_ bx dy dx k Hf) as Lf.
  pose proof (lookup_tiled g W H bw bh 1 L by_ bx dy dx k Hg) as Lg.
  rewrite !blocks_1 in Lf, Lg. fold n0 n1 nw nh in Lf, Lg.
  rewrite Lf, Lg by assumption.
  rewrite Hfg; [reflexivity|].
  intros Heq. injection Heq as Hx Hy.
  apply (Hi k); [assumption|].
  rewrite <- Hx, <- Hy, Ht. exact Ei.
Qed.

Lemma IA4_cell_other img img' x0 y0 x y :
  Bounds img' = Bounds img ->
  (forall x y, (x, y) <> (x0, y0) -> At img' x y = At img x y) ->
  (x, y) <> (x0, y0) -> [IA4_cell img x y] = [IA4_cell img' x y].
Proof.
  intros Hb Hat Hne. unfold IA4_cell, width_of, height_of.
  now rewrite Hb, Hat.
Qed.

Lemma RGB565_cell_other img img' x0 y0 x y :
  Bounds img' = Bounds img ->
  (forall x y, (x, y) <> (x0, y0) -> At img' x y = At img x y) ->
  (x, y) <> (x0, y0) -> RGB565_cell img x y = RGB565_cell img' x y.
Proof.
  intros Hb Hat Hne. unfold RGB565_cell, width_of, height_of.
  now rewrite Hb, Hat.
Qed.

(** X14: a pixel has one place in the payload.  When two images with the
    same bounds differ in the pixel (x0, y0) only, their IA4 payloads
    agree in every byte but the one at the texel's place in the 8x4-tiled
    order, and their RGB565 payloads agree in every byte but the two at
    twice the texel's place in the 4x4-tiled order. *)
Theorem pixel_change_is_local img img' x0 y0 :
  at_origin img -> Bounds img' = Bounds img ->
  (forall x y, (x, y) <> (x0, y0) -> At img' x y = At img x y) ->
  exists a a' c c',
    ToIA4_output img = Ok a /\ ToIA4_output img' = Ok a' /\
    ToRGB565_output img = Ok c /\ ToRGB565_output img' = Ok c' /\
    length a' = length a /\ length c' = length c /\
    (forall i : nat,
       i <> tile_index (width_of img) 8 4 1 x0 y0 -> a' !! i = a !! i) /\
    (forall i : nat,
       i <> (tile_index (width_of img) 4 4 1 x0 y0 * 2)%nat ->
       i <> (tile_index (width_of img) 4 4 1 x0 y0 * 2 + 1)%nat ->
       c' !! i = c !! i).
Proof.
  intros Ho Hb Hat.
  assert (at_origin img') as Ho'.
  { unfold at_origin, width_of, height_of in *. now rewrite Hb. }
  assert (width_of img' = width_of img) as HW by (unfold width_of; now rewrite Hb).
  assert (height_of img' = height_of img) as HH by (unfold height_of; now rewrite Hb).
  do 4 eexists.
  split; [now apply ToIA4_output_eq|].
  split; [now apply ToIA4_output_eq|].
  split; [now apply ToRGB565_output_eq|].
  split; [now apply ToRGB565_output_eq|].
  rewrite HW, HH.
  split; [now rewrite !(length_tiled _ _ _ _ _ _ 1%nat) by reflexivity|].
  split; [now rewrite !(length_tiled _ _ _ _ _ _ 2%nat) by apply length_RGB565_cell|].
  split.
  - intros i Hi. symmetry.
    apply (lookup_tiled_other _ _ _ _ _ _ 1%nat i x0 y0); try lia; try reflexivity.
    intros x y Hne. now apply (IA4_cell_other img img' x0 y0).
  - intros i Hi0 Hi1. symmetry.
    apply (lookup_tiled_other _ _ _ _ _ _ 2%nat i x0 y0); try lia;
      try apply length_RGB565_cell.
    intros x y Hne. now apply (RGB565_cell_other img img' x0 y0).
Qed.

Lemma pixel_change_is_local_witness :
  exists a a',
    ToIA4_output (uniform 9 5 (rgba8 10 20 30 255)) = Ok a /\
    ToIA4_output (mkImage 0 0 9 5
      (fun x y => if decide ((x, y) = (8, 4)) then rgba8 200 200 200 0
                  else rgba8 10 20 30 255)) = Ok a' /\
    a' !! 0%nat = a !! 0%nat.
Proof.
  destruct (pixel_change_is_local (uniform 9 5 (rgba8 10 20 30 255))
              (mkImage 0 0 9 5
                 (fun x y => if decide ((x, y) = (8, 4)) then rgba8 200 200 200 0
                             else rgba8 10 20 30 255)) 8 4)
    as (a & a' & c & c' & Ha & Ha' & _ & _ & _ & _ & Hloc & _).
  - unfold at_origin. cbn. lia.
  - reflexivity.
  - intros x y Hne. cbn. destruct (decide ((x, y) = (8, 4))); [contradiction|reflexivity].
  - exists a, a'. split; [exact Ha|]. split; [exact Ha'|].
    apply Hloc. vm_compute. discriminate.
Defined.

(** ** The alpha levels of RGB5A3 *)

(** X15: the top four bits of an RGB5A3 texel are never 6 or 7.  They are
    at most 5 exactly when the pixel's alpha is at most 0xDA, so of the
    eight levels of the 3-bit alpha field only 0 to 5 are ever written;
    a pixel more opaque than level 5 allows is stored without alpha. *)
Theorem RGB5A3_alpha_levels c :
  let v := RGB5A3_texel (pack_texel c) in
  v / 2 ^ 12 <> 6 /\ v / 2 ^ 12 <> 7 /\
  (v / 2 ^ 12 <= 5 <-> chan8 (alpha c) <= 0xda).
Proof.
  cbv zeta. rewrite RGB5A3_texel_pack. unfold RGB5A3_value.
  chan_ranges c.
  pose proof (quant_range (chan8 (red c)) 15 ltac:(lia) ltac:(lia)).
  pose proof (quant_range (chan8 (green c)) 15 ltac:(lia) ltac:(lia)).
  pose proof (quant_range (chan8 (blue c)) 15 ltac:(lia) ltac:(lia)).
  pose proof (quant_range (chan8 (red c)) 31 ltac:(lia) ltac:(lia)).
  pose proof (quant_range (chan8 (green c)) 31 ltac:(lia) ltac:(lia)).
  pose proof (quant_range (chan8 (blue c)) 31 ltac:(lia) ltac:(lia)).
  destruct (Z.leb_spec (chan8 (alpha c)) 0xda) as [Ha|Ha].
  - assert (0 <= quant (chan8 (alpha c)) 7 <= 5) as Hq.
    { unfold quant. split; [apply Z.div_pos; lia|].
      assert (chan8 (alpha c) * 7 / 255 < 6) by (apply Z.div_lt_upper_bound; lia).
      lia. }
    set (qa := quant (chan8 (alpha c)) 7) in *.
    set (qr := quant (chan8 (red c)) 15) in *.
    set (qg := quant (chan8 (green c)) 15) in *.
    set (qb := quant (chan8 (blue c)) 15) in *.
    assert ((qa * 2 ^ 12 + qr * 2 ^ 8 + qg * 2 ^ 4 + qb) / 2 ^ 12 = qa) as ->.
    { symmetry. apply (Z.div_unique _ _ _ (qr * 2 ^ 8 + qg * 2 ^ 4 + qb)); lia. }
    lia.
  - set (qr := quant (chan8 (red c)) 31) in *.
    set (qg := quant (chan8 (green c)) 31) in *.
    set (qb := quant (chan8 (blue c)) 31) in *.
    assert (8 <= (2 ^ 15 + qr * 2 ^ 10 + qg * 2 ^ 5 + qb) / 2 ^ 12).
    { apply Z.div_le_lower_bound; lia. }
    lia.
Qed.

Lemma RGB5A3_alpha_levels_witness :
  RGB5A3_texel (pack_texel (rgba8 255 255 255 0xda)) / 2 ^ 12 <= 5.
Proof.
  apply (RGB5A3_alpha_levels (rgba8 255 255 255 0xda)). vm_compute. discriminate.
Defined.

(** ** Images with no column or no row at or after the origin *)

Lemma addPadding_bounds v b :
  - 2 ^ 30 <= v < 2 ^ 30 -> 0 < b <= 8 -> - 2 ^ 30 <= addPadding v b < 2 ^ 30 + 16.
Proof.
  intros Hv Hb. unfold addPadding.
  assert (- b < Z.rem v b < b) as Hr.
  { destruct (Z.le_gt_cases 0 v).
    - pose proof (Z.rem_bound_pos v b ltac:(lia) ltac:(lia)). lia.
    - pose proof (Z.rem_bound_pos (- v) b ltac:(lia) ltac:(lia)) as Hr.
      rewrite Z.rem_opp_l' in Hr. lia. }
  destruct (Z.rem v b =? 0); cbn [negb]; [lia|].
  rewrite (int_small (b - Z.rem v b)), int_small by lia. lia.
Qed.

Lemma outer_loops_skip {S : Type} (inner : Z -> Z -> S -> result S) W H bw bh s :
  0 < bw -> 0 < bh -> W + bw <= 2 ^ 63 -> H + bh <= 2 ^ 63 ->
  W <= 0 \/ H <= 0 ->
  for_ 0 H bh (fun y1 => for_ 0 W bw (fun x1 => inner y1 x1)) s = Ok s.
Proof.
  intros Hbw Hbh HW HH Hempty.
  rewrite for_foldM by lia. apply foldM_skip.
  intros y1 s' Hy1. apply elem_of_range in Hy1 as [Hy1 _]; [|assumption].
  rewrite for_foldM by lia.
  rewrite range_nil; [reflexivity|assumption|lia].
Qed.

(** X16: when the maximum corner has a coordinate that is zero or
    negative (an image at or left of, or above, the origin, the empty
    image included) the loops of every encoder run no iteration: no pixel
    is encoded and the payload is all zeros, as long as the padded sizes
    say.  When that length is negative the conversion panics on it. *)
Theorem no_column_or_row e img :
  let W := width_of img in
  let H := height_of img in
  let n := match e with
           | EncI4 => Z.quot (addPadding W 8 * addPadding H 8) 2
           | EncIA4 => addPadding W 8 * addPadding H 4
           | EncRGB565 | EncRGB5A3 => addPadding W 4 * addPadding H 4 * 2
           end in
  - 2 ^ 30 <= X (Min (Bounds img)) <= W -> W < 2 ^ 30 ->
  - 2 ^ 30 <= Y (Min (Bounds img)) <= H -> H < 2 ^ 30 ->
  W <= 0 \/ H <= 0 ->
  (n < 0 -> To_output e img = Panic LenOutOfRange) /\
  (0 <= n -> To_output e img = Ok (replicate (Z.to_nat n) 0)).
Proof.
  intros W H n HX HW HY HH Hempty.
  assert (imageToRGBA img = Ok (texels img)) as Hraw
    by (apply imageToRGBA_ok; assumption).
  pose proof (addPadding_bounds W 8 ltac:(lia) ltac:(lia)) as HW8.
  pose proof (addPadding_bounds W 4 ltac:(lia) ltac:(lia)) as HW4.
  pose proof (addPadding_bounds H 8 ltac:(lia) ltac:(lia)) as HH8.
  pose proof (addPadding_bounds H 4 ltac:(lia) ltac:(lia)) as HH4.
  assert (- 2 ^ 62 < addPadding W 8 * addPadding H 8 < 2 ^ 62) by nia.
  assert (- 2 ^ 62 < addPadding W 8 * addPadding H 4 < 2 ^ 62) by nia.
  assert (- 2 ^ 62 < addPadding W 4 * addPadding H 4 < 2 ^ 62) by nia.
  destruct e; cbn [To_output];
    unfold ToI4_output, ToIA4_output, ToRGB565_output, ToRGB5A3_output;
    rewrite Hraw; cbn [bind]; cbv zeta; fold W H;
    rewrite ?(int_small (addPadding W 8 * addPadding H 8)),
            ?(int_small (addPadding W 8 * addPadding H 4)),
            ?(int_small (addPadding W 4 * addPadding H 4)),
            ?(int_small (addPadding W 4 * addPadding H 4 * 2)) by lia;
    fold n; unfold make;
    (split; intros Hn;
     [destruct (Z.ltb_spec n 0); [reflexivity|lia]|
      destruct (Z.ltb_spec n 0); [lia|]; cbn [bind];
      rewrite outer_loops_skip by (assumption || lia); reflexivity]).
Qed.

Lemma no_column_or_row_witness :
  To_output EncI4 (mkImage (-4) (-4) (-1) 5 (fun _ _ => rgba8 255 255 255 255))
  = Ok (replicate 32 0).
Proof.
  pose proof (no_column_or_row EncI4
                (mkImage (-4) (-4) (-1) 5 (fun _ _ => rgba8 255 255 255 255)))
    as Hskip.
  cbv zeta in Hskip.
  destruct Hskip as [_ Hok]; [unfold width_of, height_of; cbn; lia..|].
  apply Hok. vm_compute. discriminate.
Defined.
